(** * DBTui: catalog navigation and query execution

    A shallow embedding of [db.go] and [ui.go] (the [AppState] methods of the
    PostgreSQL terminal client) together with the properties of its
    statement guard, identifier quoter, query executor, catalog navigator
    and status-bar notifications.

    Go strings are byte sequences: they are embedded as [string] (a list of
    8-bit [ascii]).  The database driver (pgx) and the widget toolkit (tview)
    are external: the driver is an oracle answering each issued query with an
    error or a row cursor, and a widget is its observable content. *)

From Stdlib Require Import String Ascii List ZArith Lia Bool.
From Stdlib Require Import Permutation Sorted DecimalString.
From stdpp Require Import base gmap strings.

Local Open Scope char_scope.

(** ** Go standard library: [strings] and [fmt] *)

Module GoStrings.

(** The byte [0x22]. *)
Definition dquote : ascii := "034".

Definition semicolon : ascii := ";".

(** [strings.asciiSpace]: the ASCII bytes for which [unicode.IsSpace]
    holds. *)
Definition asciiSpace (c : ascii) : bool :=
  match c with
  | "009" | "010" | "011" | "012" | "013" | " " => true
  | _ => false
  end.

(** UTF-8 encodings of the two-byte white space runes U+0085 and U+00A0. *)
Definition space2 (c1 c2 : ascii) : bool :=
  match c1, c2 with
  | "194", "133" | "194", "160" => true
  | _, _ => false
  end.

(** UTF-8 encodings of the three-byte white space runes: U+1680,
    U+2000..U+200A, U+2028, U+2029, U+202F, U+205F and U+3000. *)
Definition space3 (c1 c2 c3 : ascii) : bool :=
  match c1, c2, c3 with
  | "225", "154", "128" => true
  | "226", "128", _ =>
      ((128 <=? nat_of_ascii c3)%nat && (nat_of_ascii c3 <=? 138)%nat)
      || Ascii.eqb c3 "168" || Ascii.eqb c3 "169" || Ascii.eqb c3 "175"
  | "226", "129", "159" => true
  | "227", "128", "128" => true
  | _, _, _ => false
  end.

(** [strings.TrimLeftFunc(s, unicode.IsSpace)]: runes are decoded from the
    front; an invalid sequence decodes to U+FFFD, which is not a space. *)
Fixpoint trimLeft (s : string) : string :=
  match s with
  | EmptyString => EmptyString
  | String c1 s1 =>
      if asciiSpace c1 then trimLeft s1
      else match s1 with
           | EmptyString => s
           | String c2 s2 =>
               if space2 c1 c2 then trimLeft s2
               else match s2 with
                    | EmptyString => s
                    | String c3 s3 =>
                        if space3 c1 c2 c3 then trimLeft s3 else s
                    end
           end
  end.

(** [strings.TrimRightFunc(s, unicode.IsSpace)] on the reversed string:
    [utf8.DecodeLastRuneInString] walks back to the lead byte, so the
    bytes of a rune arrive last byte first. *)
Fixpoint trimRev (r : string) : string :=
  match r with
  | EmptyString => EmptyString
  | String c1 r1 =>
      if asciiSpace c1 then trimRev r1
      else match r1 with
           | EmptyString => r
           | String c2 r2 =>
               if space2 c2 c1 then trimRev r2
               else match r2 with
                    | EmptyString => r
                    | String c3 r3 =>
                        if space3 c3 c2 c1 then trimRev r3 else r
                    end
           end
  end.

Definition trimRight (s : string) : string :=
  String.rev (trimRev (String.rev s)).

(** [strings.TrimSpace]: leading and trailing Unicode white space
    removed. *)
Definition TrimSpace (s : string) : string := trimRight (trimLeft s).

(** [strings.ReplaceAll] of the one-byte text [0x22] by the two-byte
    text [0x22 0x22]: every double quote is doubled. *)
Fixpoint doubleQuotes (s : string) : string :=
  match s with
  | EmptyString => EmptyString
  | String c s' =>
      if Ascii.eqb c dquote
      then String dquote (String dquote (doubleQuotes s'))
      else String c (doubleQuotes s')
  end.

(** [fmt.Sprintf("%d", n)] for a Go [int]. *)
Definition itoa (n : Z) : string := NilZero.string_of_int (Z.to_int n).

End GoStrings.

(** ** Go standard library: [regexp]

    The two patterns of [db.go] use classes, concatenation and iteration
    only.  A pattern is matched with Brzozowski derivatives; its meaning is
    the relation [matches].  Go matches runes of the UTF-8 text; the
    classes of the two patterns are sets of ASCII characters or the
    complement of one, and every byte of a longer rune (or of an invalid
    sequence) is above [0x7F], so matching byte by byte finds a match
    exactly when matching rune by rune does. *)

Module Regexp.

Inductive re : Type :=
| Void
| Eps
| Class (p : ascii -> bool)
| Cat (r1 r2 : re)
| Alt (r1 r2 : re)
| Star (r : re).

Fixpoint nullable (r : re) : bool :=
  match r with
  | Void => false
  | Eps => true
  | Class _ => false
  | Cat r1 r2 => nullable r1 && nullable r2
  | Alt r1 r2 => nullable r1 || nullable r2
  | Star _ => true
  end.

Fixpoint deriv (c : ascii) (r : re) : re :=
  match r with
  | Void => Void
  | Eps => Void
  | Class p => if p c then Eps else Void
  | Cat r1 r2 =>
      if nullable r1
      then Alt (Cat (deriv c r1) r2) (deriv c r2)
      else Cat (deriv c r1) r2
  | Alt r1 r2 => Alt (deriv c r1) (deriv c r2)
  | Star r1 => Cat (deriv c r1) (Star r1)
  end.

(** [MatchString] of the anchored pattern [^r$]: the whole text is in
    the language of [r]. *)
Fixpoint matchWhole (r : re) (s : string) : bool :=
  match s with
  | EmptyString => nullable r
  | String c s' => matchWhole (deriv c r) s'
  end.

(** Some prefix of the text is in the language of [r]. *)
Fixpoint matchPrefix (r : re) (s : string) : bool :=
  nullable r ||
  match s with
  | EmptyString => false
  | String c s' => matchPrefix (deriv c r) s'
  end.

(** [FindStringIndex(s) != nil] for the unanchored pattern [r]: a match
    starts at some position of the text. *)
Fixpoint found (r : re) (s : string) : bool :=
  matchPrefix r s ||
  match s with
  | EmptyString => false
  | String _ s' => found r s'
  end.

(** The language of a pattern. *)
Inductive matches : re -> string -> Prop :=
| MEps : matches Eps EmptyString
| MClass (p : ascii -> bool) c :
    p c = true -> matches (Class p) (String c EmptyString)
| MCat r1 r2 s1 s2 :
    matches r1 s1 -> matches r2 s2 -> matches (Cat r1 r2) (s1 +:+ s2)
| MAltL r1 r2 s : matches r1 s -> matches (Alt r1 r2) s
| MAltR r1 r2 s : matches r2 s -> matches (Alt r1 r2) s
| MStarNil r : matches (Star r) EmptyString
| MStarApp r s1 s2 :
    matches r s1 -> matches (Star r) s2 -> matches (Star r) (s1 +:+ s2).

(** The Perl class [\s] of Go's [regexp/syntax]: [[\t\n\f\r ]]. *)
Definition perlSpace (c : ascii) : bool :=
  match c with
  | "009" | "010" | "012" | "013" | " " => true
  | _ => false
  end.

Definition inRange (lo hi c : ascii) : bool :=
  (lo <=? c) && (c <=? hi).

End Regexp.

(** ** [db.go]: statement guard and identifier quoter *)

(** [multiStmtRe = regexp.MustCompile(`;\s*[^\s]`)] *)
Definition multiStmtRe : Regexp.re :=
  Regexp.Cat (Regexp.Class (Ascii.eqb GoStrings.semicolon))
    (Regexp.Cat (Regexp.Star (Regexp.Class Regexp.perlSpace))
       (Regexp.Class (fun c => negb (Regexp.perlSpace c)))).

Definition hasMultipleStatements (q : string) : bool :=
  Regexp.found multiStmtRe q.

(** The class [[a-z_]]. *)
Definition identStart (c : ascii) : bool :=
  Regexp.inRange "a" "z" c || Ascii.eqb c "_".

(** The class [[a-z0-9_]]. *)
Definition identRest (c : ascii) : bool :=
  Regexp.inRange "a" "z" c || Regexp.inRange "0" "9" c || Ascii.eqb c "_".

(** The pattern [[a-z_][a-z0-9_]*] between the anchors of
    [^[a-z_][a-z0-9_]*$]. *)
Definition identRe : Regexp.re :=
  Regexp.Cat (Regexp.Class identStart) (Regexp.Star (Regexp.Class identRest)).

Definition pgIdent (name : string) : string :=
  if String.eqb name EmptyString then name
  else if Regexp.matchWhole identRe name then name
  else String GoStrings.dquote
         (GoStrings.doubleQuotes name +:+ String GoStrings.dquote EmptyString).

Local Close Scope char_scope.

(** ** The driver: a pgx pool as an oracle *)

(** The text of a Go [error], as [%v] prints it. *)
Definition Error : Type := string.

(** A decoded column value, the [any] of [rows.Values()]; [VNil] is the
    untyped [nil] that the driver returns for SQL NULL. *)
Inductive Value : Type :=
| VNil
| VText (s : string)
| VInt (n : Z)
| VBool (b : bool).

(** What the cursor delivers for one row: the decoded values, or the
    decode error of that row. *)
Inductive Row : Type :=
| Decoded (vals : list Value)
| Undecodable (err : Error).

(** A [pgx.Rows] cursor: the column descriptors, the rows that [Next]
    steps through, the terminal error of [Err] (a failure that ended the
    stream, such as an exceeded deadline), the text of
    [time.Since(started).Truncate(time.Millisecond)] once the stream has
    ended, and the error that [Scan] returns for a delivered row whose
    values do not fit the string destinations of the caller (the driver
    names the destination and the column in it). *)
Record Rows : Type := {
  FieldDescriptions : list string;
  stream : list Row;
  Err : option Error;
  elapsed : string;
  ScanErr : list Value -> Error
}.

(** One call of [pool.Query(ctx, sql, args...)]. *)
Record Query : Type := { sql : string; args : list string }.

(** The two results of [pool.Query]: [err != nil], or a cursor.  The
    deadline of the call's context is part of the driver: an exceeded
    deadline is an error of either kind. *)
Inductive Answer : Type :=
| Refused (err : Error)
| Opened (rows : Rows).

Definition Pool : Type := Query -> Answer.

(** [rows.Values()] *)
Definition Values (r : Row) : Error + list Value :=
  match r with
  | Decoded vals => inr vals
  | Undecodable err => inl err
  end.

(** [rows.Scan(&n)] with [n] a [string]: the row must hold exactly one
    text value; for any other delivered row the error is the cursor's. *)
Definition Scan1 (rows : Rows) (r : Row) : Error + string :=
  match r with
  | Decoded [VText n] => inr n
  | Decoded vals => inl (ScanErr rows vals)
  | Undecodable err => inl err
  end.

(** [rows.Scan(&name, &typ, &nullable)] with three [string]s. *)
Definition Scan3 (rows : Rows) (r : Row)
  : Error + (string * string * string) :=
  match r with
  | Decoded [VText a; VText b; VText c] => inr (a, b, c)
  | Decoded vals => inl (ScanErr rows vals)
  | Undecodable err => inl err
  end.

(** [fmt.Sprint(v)] *)
Definition Sprint (v : Value) : string :=
  match v with
  | VNil => "<nil>"
  | VText s => s
  | VInt n => GoStrings.itoa n
  | VBool true => "true"
  | VBool false => "false"
  end.

(** ** The widgets: tview *)

(** A cell of a [tview.Table]: its text, and whether it carries the header
    attributes (not selectable, bold, white on blue) or the data attribute
    (expansion 1). *)
Record TableCell : Type := { Text : string; isHeader : bool }.

(** The content of a [tview.Table], by row and column. *)
Abbreviation Table := (gmap (nat * nat) TableCell).

(** An item of a [tview.List]. *)
Record ListItem : Type := { mainText : string; shortcut : ascii }.

Inductive TableRef : Type := ColumnTable | ResultTable.

(** [AppState] of the program; the widgets [app], [queryArea] and [layout]
    carry no state of the operations below.  The last three fields are
    the environment: the queries sent to the pool so far, the clock in
    milliseconds, and the wake-up times of the goroutines that [toast]
    started and that are still asleep. *)
Record AppState : Type := {
  schemaList : list ListItem;
  tableList : list ListItem;
  columnTable : Table;
  resultTable : Table;
  statusBar : string;
  previewLimit : Z;
  currentSchema : string;
  currentTable : string;
  issued : list Query;
  now : nat;
  sleepers : list nat
}.

Definition with_schemaList (v : list ListItem) (s : AppState) : AppState :=
  {| schemaList := v; tableList := tableList s;
     columnTable := columnTable s; resultTable := resultTable s;
     statusBar := statusBar s; previewLimit := previewLimit s;
     currentSchema := currentSchema s; currentTable := currentTable s;
     issued := issued s; now := now s; sleepers := sleepers s |}.

Definition with_tableList (v : list ListItem) (s : AppState) : AppState :=
  {| schemaList := schemaList s; tableList := v;
     columnTable := columnTable s; resultTable := resultTable s;
     statusBar := statusBar s; previewLimit := previewLimit s;
     currentSchema := currentSchema s; currentTable := currentTable s;
     issued := issued s; now := now s; sleepers := sleepers s |}.

Definition with_columnTable (v : Table) (s : AppState) : AppState :=
  {| schemaList := schemaList s; tableList := tableList s;
     columnTable := v; resultTable := resultTable s;
     statusBar := statusBar s; previewLimit := previewLimit s;
     currentSchema := currentSchema s; currentTable := currentTable s;
     issued := issued s; now := now s; sleepers := sleepers s |}.

Definition with_resultTable (v : Table) (s : AppState) : AppState :=
  {| schemaList := schemaList s; tableList := tableList s;
     columnTable := columnTable s; resultTable := v;
     statusBar := statusBar s; previewLimit := previewLimit s;
     currentSchema := currentSchema s; currentTable := currentTable s;
     issued := issued s; now := now s; sleepers := sleepers s |}.

Definition with_statusBar (v : string) (s : AppState) : AppState :=
  {| schemaList := schemaList s; tableList := tableList s;
     columnTable := columnTable s; resultTable := resultTable s;
     statusBar := v; previewLimit := previewLimit s;
     currentSchema := currentSchema s; currentTable := currentTable s;
     issued := issued s; now := now s; sleepers := sleepers s |}.

Definition with_currentSchema (v : string) (s : AppState) : AppState :=
  {| schemaList := schemaList s; tableList := tableList s;
     columnTable := columnTable s; resultTable := resultTable s;
     statusBar := statusBar s; previewLimit := previewLimit s;
     currentSchema := v; currentTable := currentTable s;
     issued := issued s; now := now s; sleepers := sleepers s |}.

Definition with_currentTable (v : string) (s : AppState) : AppState :=
  {| schemaList := schemaList s; tableList := tableList s;
     columnTable := columnTable s; resultTable := resultTable s;
     statusBar := statusBar s; previewLimit := previewLimit s;
     currentSchema := currentSchema s; currentTable := v;
     issued := issued s; now := now s; sleepers := sleepers s |}.

Definition with_issued (v : list Query) (s : AppState) : AppState :=
  {| schemaList := schemaList s; tableList := tableList s;
     columnTable := columnTable s; resultTable := resultTable s;
     statusBar := statusBar s; previewLimit := previewLimit s;
     currentSchema := currentSchema s; currentTable := currentTable s;
     issued := v; now := now s; sleepers := sleepers s |}.

Definition with_clock (t : nat) (zs : list nat) (s : AppState) : AppState :=
  {| schemaList := schemaList s; tableList := tableList s;
     columnTable := columnTable s; resultTable := resultTable s;
     statusBar := statusBar s; previewLimit := previewLimit s;
     currentSchema := currentSchema s; currentTable := currentTable s;
     issued := issued s; now := t; sleepers := zs |}.

Definition getTable (tbl : TableRef) (s : AppState) : Table :=
  match tbl with
  | ColumnTable => columnTable s
  | ResultTable => resultTable s
  end.

Definition setTable (tbl : TableRef) (t : Table) (s : AppState) : AppState :=
  match tbl with
  | ColumnTable => with_columnTable t s
  | ResultTable => with_resultTable t s
  end.

(** The state that [main] builds: empty widgets, the limit of the
    [-limit] flag. *)
Definition initial (limit : Z) : AppState :=
  {| schemaList := []; tableList := [];
     columnTable := ∅; resultTable := ∅;
     statusBar := EmptyString; previewLimit := limit;
     currentSchema := EmptyString; currentTable := EmptyString;
     issued := []; now := 0; sleepers := [] |}.

(** ** [ui.go]: the status bar *)

Definition idleStatus : string :=
  "F5: Run | q: Quit | r: Refresh | Tab: Cycle Focus".

(** The delay of [time.Sleep(3 * time.Second)], in milliseconds. *)
Definition revertDelay : nat := 3000.

Definition updateStatus (msg : string) (s : AppState) : AppState :=
  with_statusBar msg s.

(** [toast]: [msg] is the text [fmt.Sprintf(format, args...)].  The status
    bar shows it, and a goroutine is started that sleeps for the delay. *)
Definition toast (msg : string) (s : AppState) : AppState :=
  with_clock (now s) (sleepers s ++ [now s + revertDelay])
    (with_statusBar ("[yellow]" +:+ msg) s).

(** What a goroutine of [toast] does when it wakes up: the update that
    [QueueUpdateDraw] runs on the event loop. *)
Definition revert (s : AppState) : AppState := updateStatus idleStatus s.

(** The clock advances by [d] milliseconds while the event loop is idle:
    every goroutine whose sleep has ended by then wakes up, the others
    stay asleep. *)
Definition elapse (d : nat) (s : AppState) : AppState :=
  let t := now s + d in
  let woken := List.filter (fun w => w <=? t) (sleepers s) in
  let asleep := List.filter (fun w => negb (w <=? t)) (sleepers s) in
  fold_right (fun _ s' => revert s') (with_clock t asleep s) woken.

(** ** [db.go]: tables and lists *)

Definition headerCell (text : string) : TableCell :=
  {| Text := text; isHeader := true |}.

Definition dataCell (text : string) : TableCell :=
  {| Text := text; isHeader := false |}.

(** The loop of [setHeader], from column [i] on. *)
Fixpoint setHeaderFrom (i : nat) (cols : list string) (t : Table) : Table :=
  match cols with
  | [] => t
  | h :: cols' =>
      let text := if (0 <? i)%nat then " | " +:+ h +:+ " "
                  else " " +:+ h +:+ " " in
      setHeaderFrom (S i) cols' (<[(0, i) := headerCell text]> t)
  end.

Definition setHeader (t : Table) (cols : list string) : Table :=
  setHeaderFrom 0 cols t.

(** The loop of [setRow], from column [i] on. *)
Fixpoint setRowFrom (row i : nat) (cols : list string) (t : Table) : Table :=
  match cols with
  | [] => t
  | v :: cols' =>
      let text := if (0 <? i)%nat then " | " +:+ v else v in
      setRowFrom row (S i) cols' (<[(row, i) := dataCell text]> t)
  end.

Definition setRow (t : Table) (row : nat) (cols : list string) : Table :=
  setRowFrom row 0 cols t.

(** [rune('a' + (i % 26))] *)
Definition shortcutOf (i : nat) : ascii := ascii_of_nat (97 + i mod 26).

(** The loop [for i, x := range xs { list.AddItem(x, "", ..., nil) }],
    from index [i] on. *)
Fixpoint addItemsFrom (i : nat) (xs : list string) (l : list ListItem)
  : list ListItem :=
  match xs with
  | [] => l
  | x :: xs' =>
      addItemsFrom (S i) xs' (l ++ [{| mainText := x; shortcut := shortcutOf i |}])
  end.

Definition addItems (xs : list string) (l : list ListItem) : list ListItem :=
  addItemsFrom 0 xs l.

(** The loop [for rows.Next() { rows.Scan(&n); xs = append(xs, n) }]: the
    names read, or the error at which the function returns. *)
Fixpoint scanNames (rows : Rows) (rs : list Row) : Error + list string :=
  match rs with
  | [] => inr []
  | r :: rs' =>
      match Scan1 rows r with
      | inl err => inl err
      | inr n =>
          match scanNames rows rs' with
          | inl err => inl err
          | inr ns => inr (n :: ns)
          end
      end
  end.

(** [sort.Strings]: ascending in Go's string order, which compares
    bytes. *)
Fixpoint insertSorted (x : string) (l : list string) : list string :=
  match l with
  | [] => [x]
  | y :: l' => if String.leb x y then x :: l else y :: insertSorted x l'
  end.

Fixpoint sortStrings (l : list string) : list string :=
  match l with
  | [] => []
  | x :: l' => insertSorted x (sortStrings l')
  end.

(** The cell text of a value in [runQueryInto]. *)
Definition stringify (v : Value) : string :=
  match v with
  | VNil => "NULL"
  | _ => Sprint v
  end.

(** ** [db.go]: the SQL texts *)

Definition indent : string :=
  String "010"%char (String "009"%char (String "009"%char "")).

Definition schemataSQL : string :=
  indent +:+ "SELECT schema_name" +:+
  indent +:+ "FROM information_schema.schemata" +:+
  indent +:+ "WHERE schema_name NOT IN ('pg_toast', 'pg_temp_1', 'pg_toast_temp_1')" +:+
  indent +:+ "ORDER BY schema_name".

Definition tablesSQL : string :=
  indent +:+ "SELECT table_name" +:+
  indent +:+ "FROM information_schema.tables" +:+
  indent +:+ "WHERE table_schema = $1 AND table_type = 'BASE TABLE'" +:+
  indent +:+ "ORDER BY table_name".

Definition columnsSQL : string :=
  indent +:+ "SELECT column_name, data_type, is_nullable" +:+
  indent +:+ "FROM information_schema.columns" +:+
  indent +:+ "WHERE table_schema = $1 AND table_name = $2" +:+
  indent +:+ "ORDER BY ordinal_position".

Definition schemataQuery : Query := {| sql := schemataSQL; args := [] |}.

Definition tablesQuery (schema : string) : Query :=
  {| sql := tablesSQL; args := [schema] |}.

Definition columnsQuery (schema table : string) : Query :=
  {| sql := columnsSQL; args := [schema; table] |}.

Definition textQuery (q : string) : Query := {| sql := q; args := [] |}.

(** The text that [previewTable] formats. *)
Definition previewSQL (schema table : string) (limit : Z) : string :=
  "SELECT * FROM " +:+ (pgIdent schema +:+ "." +:+ pgIdent table) +:+
  " LIMIT " +:+ GoStrings.itoa limit.

(** ** [db.go] and [ui.go]: the operations *)

Section Operations.

Variable pool : Pool.

(** [s.pool.Query(ctx, ...)] is recorded as sent. *)
Definition send (q : Query) (s : AppState) : AppState :=
  with_issued (issued s ++ [q]) s.

(** The row loop of [runQueryInto] and what follows it. *)
Fixpoint runQueryRows (tbl : TableRef) (rows : Rows) (row : nat)
    (rs : list Row) (s : AppState) : AppState :=
  match rs with
  | [] =>
      match Err rows with
      | Some err => toast ("rows err: " +:+ err) s
      | None =>
          toast (GoStrings.itoa (Z.of_nat (row - 1)) +:+ " rows in "
                 +:+ elapsed rows) s
      end
  | r :: rs' =>
      match Values r with
      | inl err => toast ("row error: " +:+ err) s
      | inr vals =>
          runQueryRows tbl rows (S row) rs'
            (setTable tbl (setRow (getTable tbl s) row (map stringify vals)) s)
      end
  end.

(** [runQueryInto]; [ScrollToBeginning] moves the view of the result
    table only. *)
Definition runQueryInto (q : string) (tbl : TableRef) (s : AppState)
  : AppState :=
  let s := send (textQuery q) s in
  match pool (textQuery q) with
  | Refused err => toast ("query error: " +:+ err) s
  | Opened rows =>
      let headers := FieldDescriptions rows in
      let s := setTable tbl (setHeader ∅ headers) s in
      runQueryRows tbl rows 1 (stream rows) s
  end.

Definition previewTable (schema table : string) (s : AppState) : AppState :=
  runQueryInto (previewSQL schema table (previewLimit s)) ResultTable s.

Definition runAdhocQuery (q : string) (s : AppState) : AppState :=
  let q := GoStrings.TrimSpace q in
  if String.eqb q EmptyString then s
  else if hasMultipleStatements q
  then toast "Multiple statements detected; please run one at a time." s
  else runQueryInto q ResultTable s.

(** The row loop of [loadColumns]. *)
Fixpoint loadColumnRows (rows : Rows) (row : nat) (rs : list Row)
    (s : AppState) : AppState :=
  match rs with
  | [] => s
  | r :: rs' =>
      match Scan3 rows r with
      | inl err => toast ("scan: " +:+ err) s
      | inr (name, typ, nullable) =>
          loadColumnRows rows (S row) rs'
            (with_columnTable
               (setRow (columnTable s) row [name; typ; nullable]) s)
      end
  end.

Definition loadColumns (schema table : string) (s : AppState) : AppState :=
  let s := send (columnsQuery schema table) s in
  match pool (columnsQuery schema table) with
  | Refused err => toast ("load columns: " +:+ err) s
  | Opened rows =>
      let s :=
        with_columnTable (setHeader ∅ ["Column"; "Type"; "Nullable"]%string) s in
      loadColumnRows rows 1 (stream rows) s
  end.

Definition loadTables (schema : string) (s : AppState) : AppState :=
  let s := send (tablesQuery schema) s in
  match pool (tablesQuery schema) with
  | Refused err => toast ("load tables: " +:+ err) s
  | Opened rows =>
      let s := with_tableList [] s in
      match scanNames rows (stream rows) with
      | inl err => toast ("scan: " +:+ err) s
      | inr tables =>
          let s := with_tableList (addItems tables (tableList s)) s in
          match tables with
          | t0 :: _ =>
              let s := with_currentTable t0 s in
              let s := loadColumns schema t0 s in
              previewTable schema t0 s
          | [] => with_resultTable ∅ (with_columnTable ∅ s)
          end
      end
  end.

(** [loadSchemas]: the state after the call and the error returned. *)
Definition loadSchemas (s : AppState) : AppState * option Error :=
  let s := send schemataQuery s in
  match pool schemataQuery with
  | Refused err => (s, Some err)
  | Opened rows =>
      let s := with_schemaList [] s in
      match scanNames rows (stream rows) with
      | inl err => (s, Some err)
      | inr schemas =>
          let schemas := sortStrings schemas in
          let s := with_schemaList (addItems schemas (schemaList s)) s in
          let s :=
            match schemas with
            | sc :: _ =>
                let s := with_currentSchema sc s in
                loadTables (currentSchema s) s
            | [] => s
            end in
          (s, Err rows)
      end
  end.

(** The selected-function of the schema list. *)
Definition selectSchema (mainText : string) (s : AppState) : AppState :=
  let s := with_currentSchema mainText s in
  loadTables mainText s.

(** The selected-function of the table list. *)
Definition selectTable (mainText : string) (s : AppState) : AppState :=
  let s := with_currentTable mainText s in
  let s := loadColumns (currentSchema s) (currentTable s) s in
  previewTable (currentSchema s) (currentTable s) s.

(** The key [r] outside the query area. *)
Definition refresh (s : AppState) : AppState :=
  toast "Refreshed schemas and tables." (fst (loadSchemas s)).

(** What [main] does between [initUI] and [app.Run]. *)
Definition startup (s : AppState) : AppState :=
  let (s, err) := loadSchemas s in
  let s :=
    match err with
    | Some e => toast ("Failed to load schemas: " +:+ e) s
    | None => s
    end in
  updateStatus idleStatus s.

End Operations.

(** ** The event loop *)

(** One turn of the event loop: a handler of [initUI] runs against the
    answers the database gives at that moment, or time passes.  The
    selected-functions receive the main text of an item of their list. *)
Inductive step : AppState -> AppState -> Prop :=
| StepSelectSchema pool item s :
    In item (schemaList s) -> step s (selectSchema pool (mainText item) s)
| StepSelectTable pool item s :
    In item (tableList s) -> step s (selectTable pool (mainText item) s)
| StepRefresh pool s : step s (refresh pool s)
| StepRunQuery pool text s : step s (runAdhocQuery pool text s)
| StepElapse d s : step s (elapse d s).

Inductive reachable : AppState -> Prop :=
| ReachStart pool limit : reachable (startup pool (initial limit))
| ReachStep s s' : reachable s -> step s s' -> reachable s'.

(** ** Vocabulary of the specification *)

(** Every byte of the text satisfies [p]. *)
Fixpoint allChars (p : ascii -> bool) (s : string) : bool :=
  match s with
  | EmptyString => true
  | String c s' => p c && allChars p s'
  end.

(** The white space of the statement guard is the class [\s] of its
    pattern. *)
Definition isBlank (s : string) : bool := allChars Regexp.perlSpace s.

Definition noSemicolon (s : string) : bool :=
  allChars (fun c => negb (Ascii.eqb GoStrings.semicolon c)) s.

(** A semicolon followed, after optional white space, by a byte that is
    not white space. *)
Definition semicolonThenText (q : string) : Prop :=
  exists pre ws c post,
    q = pre +:+ String GoStrings.semicolon (ws +:+ String c post)
    /\ isBlank ws = true /\ Regexp.perlSpace c = false.

(** A lowercase letter or underscore followed by lowercase letters,
    digits and underscores. *)
Definition plainIdentifier (name : string) : Prop :=
  exists c rest,
    name = String c rest /\ identStart c = true
    /\ allChars identRest rest = true.

(** [quotesDoubled name body]: [body] is [name] with each double quote
    written twice and every other byte kept. *)
Inductive quotesDoubled : string -> string -> Prop :=
| QDEmpty : quotesDoubled EmptyString EmptyString
| QDQuote name body :
    quotesDoubled name body ->
    quotesDoubled (String GoStrings.dquote name)
      (String GoStrings.dquote (String GoStrings.dquote body))
| QDOther c name body :
    c <> GoStrings.dquote ->
    quotesDoubled name body ->
    quotesDoubled (String c name) (String c body).

(** The text between a leading and a trailing double quote. *)
Definition quoted (body : string) : string :=
  String GoStrings.dquote (body +:+ String GoStrings.dquote EmptyString).

(** The text that [setRow] puts before the value of column [i]. *)
Definition separator (i : nat) : string :=
  if (0 <? i)%nat then " | " else EmptyString.

(** The content of a table that has been cleared, given the headers and
    then the rows [cells], one after the other from row 1 on. *)
Fixpoint fillFrom (row : nat) (cells : list (list string)) (t : Table)
  : Table :=
  match cells with
  | [] => t
  | r :: cells' => fillFrom (S row) cells' (setRow t row r)
  end.

Definition rendered (headers : list string) (valss : list (list Value))
  : Table :=
  fillFrom 1 (map (map stringify) valss) (setHeader ∅ headers).

(** The part of the state that the navigator owns. *)
Definition selection (s : AppState)
  : list ListItem * list ListItem * string * string * Z :=
  (schemaList s, tableList s, currentSchema s, currentTable s,
   previewLimit s).

(** The two tables on display. *)
Definition display (s : AppState) : Table * Table :=
  (columnTable s, resultTable s).

(** The schemas that the [WHERE] clause of [schemataSQL] leaves out. *)
Definition excludedSchemas : list string :=
  ["pg_toast"; "pg_temp_1"; "pg_toast_temp_1"]%string.

(** The list of SQL string literals of [names], as written in an [IN]
    clause. *)
Definition sqlLiterals (names : list string) : string :=
  String.concat ", " (map (fun n => "'" +:+ n +:+ "'") names).

Definition visibleSchema (n : string) : bool :=
  negb (existsb (String.eqb n) excludedSchemas).

(** Go's order of strings, byte by byte. *)
Definition leS (a b : string) : Prop := String.leb a b = true.

(** The rows of a one-column cursor that delivers [names]. *)
Definition nameRows (names : list string) : list Row :=
  map (fun n => Decoded [VText n]) names.

(** The invariant of the navigator that the program keeps: when the table
    list shows tables, the current table is one of them. *)
Definition tableListed (s : AppState) : Prop :=
  tableList s <> [] -> In (currentTable s) (map mainText (tableList s)).

(** ** Databases of the examples *)

Definition queryEqb (a b : Query) : bool :=
  String.eqb (sql a) (sql b) && bool_decide (args a = args b).

(** The error of the cursors of the examples for a row that does not fit
    the destinations of [Scan]. *)
Definition scanMismatch (vals : list Value) : Error :=
  "cannot scan NULL into *string".

Definition nameCursor (column : string) (names : list string) : Rows :=
  {| FieldDescriptions := [column]; stream := nameRows names;
     Err := None; elapsed := "1ms"; ScanErr := scanMismatch |}.

(** A database that refuses every query. *)
Definition offline : Pool := fun _ => Refused "connection refused"%string.

(** A preview of two columns whose second row fails to decode. *)
Definition brokenPreview : Rows :=
  {| FieldDescriptions := ["id"; "name"]%string;
     stream := [Decoded [VInt 1; VNil];
                Undecodable "invalid byte sequence";
                Decoded [VInt 3; VText "c"]];
     Err := None; elapsed := "2ms"; ScanErr := scanMismatch |}.

(** Two rows of two columns, with a NULL and an empty text. *)
Definition twoRows : Rows :=
  {| FieldDescriptions := ["id"; "name"]%string;
     stream := [Decoded [VInt 1; VNil]; Decoded [VInt 2; VText ""]];
     Err := None; elapsed := "2ms"; ScanErr := scanMismatch |}.

(** A catalog with the schemas [analytics] (one table, [events]) and
    [public] (no table); a row of [events] fails to decode. *)
Definition demo : Pool := fun q =>
  if queryEqb q schemataQuery
  then Opened (nameCursor "schema_name" ["public"; "analytics"]%string)
  else if queryEqb q (tablesQuery "analytics")
  then Opened (nameCursor "table_name" ["events"]%string)
  else if queryEqb q (tablesQuery "public")
  then Opened (nameCursor "table_name" [])
  else if queryEqb q (columnsQuery "analytics" "events")
  then Opened {| FieldDescriptions :=
                   ["column_name"; "data_type"; "is_nullable"]%string;
                 stream := [Decoded [VText "id"; VText "integer"; VText "NO"];
                            Decoded [VText "name"; VText "text"; VText "YES"]];
                 Err := None; elapsed := "1ms"; ScanErr := scanMismatch |}
  else if queryEqb q (textQuery "SELECT id, name FROM analytics.events")
  then Opened twoRows
  else if queryEqb q (textQuery "SELECT * FROM analytics.events LIMIT 100")
  then Opened brokenPreview
  else Refused "syntax error"%string.

(** The text [SELECT 1;] followed by a no-break space (U+00A0). *)
Definition selectOneNbsp : string :=
  "SELECT 1;" +:+ String "194"%char (String "160"%char EmptyString).

(** ** [ui.go]: focus and keys *)

(** The primitive that [app.GetFocus()] returns: one of the five panels,
    or anything else. *)
Inductive Primitive : Type :=
| PSchemaList
| PTableList
| PColumnTable
| PResultTable
| PQueryArea
| POther.

(** The key of a [tcell.EventKey], as far as [initUI] tells keys apart. *)
Inductive KeyCode : Type :=
| KeyRune
| KeyF5
| KeyTab
| KeyOther.

(** A [tcell.EventKey]: [ev.Key()] and the code point [ev.Rune()]. *)
Record EventKey : Type := { Key : KeyCode; Rune : Z }.

(** The program on screen: the [AppState] of the operations, the focus of
    the application, the text of the query area and whether the
    application still runs ([app.Stop] has not been called). *)
Record Screen : Type := {
  state : AppState;
  focus : Primitive;
  queryText : string;
  running : bool
}.

Definition with_state (v : AppState) (ui : Screen) : Screen :=
  {| state := v; focus := focus ui; queryText := queryText ui;
     running := running ui |}.

(** [s.app.SetFocus(p)] *)
Definition SetFocus (p : Primitive) (ui : Screen) : Screen :=
  {| state := state ui; focus := p; queryText := queryText ui;
     running := running ui |}.

(** [s.app.Stop()] *)
Definition Stop (ui : Screen) : Screen :=
  {| state := state ui; focus := focus ui; queryText := queryText ui;
     running := false |}.

Definition cycleFocus (ui : Screen) : Screen :=
  match focus ui with
  | PSchemaList => SetFocus PTableList ui
  | PTableList => SetFocus PColumnTable ui
  | PColumnTable => SetFocus PResultTable ui
  | PResultTable => SetFocus PQueryArea ui
  | _ => SetFocus PSchemaList ui
  end.

Definition isQueryArea (p : Primitive) : bool :=
  match p with
  | PQueryArea => true
  | _ => false
  end.

(** The code points of the letters of the global key bindings. *)
Definition rune_q : Z := 113.
Definition rune_Q : Z := 81.
Definition rune_r : Z := 114.
Definition rune_R : Z := 82.

(** The input capture of the application: the screen after the key, and
    the event that is passed on to the focused primitive ([None] for the
    [nil] that consumes the key). *)
Definition appInputCapture (pool : Pool) (ev : EventKey) (ui : Screen)
  : Screen * option EventKey :=
  if negb (isQueryArea (focus ui))
     && ((Rune ev =? rune_q)%Z || (Rune ev =? rune_Q)%Z)
  then (Stop ui, None)
  else if negb (isQueryArea (focus ui))
          && ((Rune ev =? rune_r)%Z || (Rune ev =? rune_R)%Z)
  then (with_state (refresh pool (state ui)) ui, None)
  else match Key ev with
       | KeyF5 =>
           (with_state (runAdhocQuery pool (queryText ui) (state ui)) ui, None)
       | KeyTab => (cycleFocus ui, None)
       | _ => (ui, Some ev)
       end.

(** The input capture of the query area. *)
Definition queryAreaInputCapture (pool : Pool) (ev : EventKey) (ui : Screen)
  : Screen * option EventKey :=
  match Key ev with
  | KeyF5 =>
      (with_state (runAdhocQuery pool (queryText ui) (state ui)) ui, None)
  | _ => (ui, Some ev)
  end.

(** ** Further vocabulary *)

(** [posts k s s']: from [s] to [s'] no time has passed and exactly [k]
    notifications have been posted; with none posted the status bar shows
    what it showed. *)
Definition posts (k : nat) (s s' : AppState) : Prop :=
  now s' = now s
  /\ sleepers s' = sleepers s ++ repeat (now s + revertDelay) k
  /\ (k = 0 -> statusBar s' = statusBar s).

(** Every pending revert is due within the delay, and with none pending
    the status bar shows the idle text. *)
Definition timely (s : AppState) : Prop :=
  (forall w, In w (sleepers s) -> now s < w <= now s + revertDelay)
  /\ (sleepers s = [] -> statusBar s = idleStatus).

(** The text of the header cell of column [i]. *)
Definition headerText (i : nat) (h : string) : string :=
  (if (0 <? i)%nat then " | " else " ") +:+ h +:+ " ".

(** The values of a row of the column query. *)
Definition columnRow (c : string * string * string) : list Value :=
  let '(name, typ, nullable) := c in [VText name; VText typ; VText nullable].

(** How SQL reads the body of a quoted identifier, after the opening
    double quote: a doubled double quote stands for one, a single one ends
    the identifier.  The result is the identifier and the text after the
    closing double quote. *)
Fixpoint readQuotedBody (s : string) : option (string * string) :=
  match s with
  | EmptyString => None
  | String c s1 =>
      if Ascii.eqb c GoStrings.dquote
      then match s1 with
           | EmptyString => Some (EmptyString, EmptyString)
           | String c2 s2 =>
               if Ascii.eqb c2 GoStrings.dquote
               then match readQuotedBody s2 with
                    | Some (name, rest) =>
                        Some (String GoStrings.dquote name, rest)
                    | None => None
                    end
               else Some (EmptyString, s1)
           end
      else match readQuotedBody s1 with
           | Some (name, rest) => Some (String c name, rest)
           | None => None
           end
  end.

Definition readQuoted (s : string) : option (string * string) :=
  match s with
  | EmptyString => None
  | String c s1 =>
      if Ascii.eqb c GoStrings.dquote then readQuotedBody s1 else None
  end.

(** The text does not start with a double quote. *)
Definition noQuoteAhead (s : string) : bool :=
  match s with
  | EmptyString => true
  | String c _ => negb (Ascii.eqb c GoStrings.dquote)
  end.

(** ** The database: how the schema query is read

    What the engine does with the text of the schema query is outside the
    program; it is modelled for statements of the one form the program
    sends: the text is split into words, string literals and punctuation,
    and a statement [SELECT schema_name FROM information_schema.schemata
    WHERE schema_name NOT IN (...) ORDER BY schema_name] is answered with
    the schema names of the catalog that are not among the literals, in
    the order of the database's collation. *)

Inductive Token : Type :=
| TWord (w : string)
| TLiteral (text : string)
| TOpen
| TClose
| TComma.

#[global] Instance Token_eq_dec : EqDecision Token.
Proof. solve_decision. Defined.

(** White space of the SQL lexer. *)
Definition sqlSpace (c : ascii) : bool :=
  match c with
  | "009"%char | "010"%char | "012"%char | "013"%char | " "%char => true
  | _ => false
  end.

(** The bytes of a keyword or of a possibly qualified name. *)
Definition sqlWordChar (c : ascii) : bool :=
  Regexp.inRange "a" "z" c || Regexp.inRange "A" "Z" c
  || Regexp.inRange "0" "9" c || Ascii.eqb c "_" || Ascii.eqb c ".".

(** Keywords and unquoted names are folded to lower case. *)
Definition sqlLower (c : ascii) : ascii :=
  if Regexp.inRange "A" "Z" c then ascii_of_nat (nat_of_ascii c + 32) else c.

Inductive LexMode : Type :=
| Idle
| InWord (acc : string)
| InLiteral (acc : string).

Definition flushWord (m : LexMode) : list Token :=
  match m with
  | InWord acc => [TWord acc]
  | _ => []
  end.

Definition wordSoFar (m : LexMode) : string :=
  match m with
  | InWord acc => acc
  | _ => EmptyString
  end.

(** The tokens of a text; [None] for a text with an unterminated literal
    or a byte outside this fragment.  In a literal a doubled quote stands
    for one quote. *)
Fixpoint lexFrom (m : LexMode) (s : string) : option (list Token) :=
  match s with
  | EmptyString =>
      match m with
      | InLiteral _ => None
      | _ => Some (flushWord m)
      end
  | String c s1 =>
      match m with
      | InLiteral acc =>
          if Ascii.eqb c "'"
          then match s1 with
               | EmptyString => Some [TLiteral acc]
               | String c2 s2 =>
                   if Ascii.eqb c2 "'"
                   then lexFrom (InLiteral (acc +:+ String c2 EmptyString)) s2
                   else option_map (cons (TLiteral acc)) (lexFrom Idle s1)
               end
          else lexFrom (InLiteral (acc +:+ String c EmptyString)) s1
      | _ =>
          if sqlWordChar c
          then lexFrom
                 (InWord (wordSoFar m +:+ String (sqlLower c) EmptyString)) s1
          else if sqlSpace c
          then option_map (app (flushWord m)) (lexFrom Idle s1)
          else if Ascii.eqb c "'"
          then option_map (app (flushWord m)) (lexFrom (InLiteral EmptyString) s1)
          else if Ascii.eqb c "("
          then option_map (fun ts => flushWord m ++ TOpen :: ts)
                 (lexFrom Idle s1)
          else if Ascii.eqb c ")"
          then option_map (fun ts => flushWord m ++ TClose :: ts)
                 (lexFrom Idle s1)
          else if Ascii.eqb c ","
          then option_map (fun ts => flushWord m ++ TComma :: ts)
                 (lexFrom Idle s1)
          else None
      end
  end.

Definition lex (s : string) : option (list Token) := lexFrom Idle s.

(** A list of literals separated by commas and closed by a parenthesis;
    the literals and the tokens after the parenthesis. *)
Fixpoint readLiterals (ts : list Token) : option (list string * list Token) :=
  match ts with
  | TLiteral x :: TClose :: rest => Some ([x], rest)
  | TLiteral x :: TComma :: ts' =>
      match readLiterals ts' with
      | Some (xs, rest) => Some (x :: xs, rest)
      | None => None
      end
  | _ => None
  end.

Definition schemataHead : list Token :=
  [TWord "select"; TWord "schema_name"; TWord "from";
   TWord "information_schema.schemata"; TWord "where"; TWord "schema_name";
   TWord "not"; TWord "in"; TOpen].

Definition schemataTail : list Token :=
  [TWord "order"; TWord "by"; TWord "schema_name"].

(** The literals of the [NOT IN] list when the text is a schema query of
    the form above. *)
Definition readSchemataQuery (text : string) : option (list string) :=
  match lex text with
  | None => None
  | Some ts =>
      if bool_decide (firstn (length schemataHead) ts = schemataHead)
      then match readLiterals (skipn (length schemataHead) ts) with
           | Some (excluded, rest) =>
               if bool_decide (rest = schemataTail) then Some excluded
               else None
           | None => None
           end
      else None
  end.

(** A database whose [information_schema.schemata] holds the schema names
    [catalog] and whose collation arranges names by [order]: a schema
    query without arguments is answered as read above, every other query
    by [rest]. *)
Definition postgres (order : list string -> list string)
    (catalog : list string) (rest : Pool) : Pool :=
  fun q =>
    match readSchemataQuery (sql q), args q with
    | Some excluded, [] =>
        Opened
          {| FieldDescriptions := ["schema_name"%string];
             stream :=
               nameRows
                 (order
                    (List.filter
                       (fun n => negb (existsb (String.eqb n) excluded))
                       catalog));
             Err := None; elapsed := EmptyString;
             ScanErr := fun _ => EmptyString |}
    | _, _ => rest q
    end.

(** A column answer whose second row holds NULL where [Scan] expects a
    text, with the error of the driver for it. *)
Definition nullColumn : Rows :=
  {| FieldDescriptions := ["column_name"; "data_type"; "is_nullable"]%string;
     stream := [Decoded [VText "id"; VText "integer"; VText "NO"];
                Decoded [VText "name"; VText "text"; VNil]];
     Err := None; elapsed := "1ms";
     ScanErr := fun _ =>
       "can't scan into dest[2] (col: is_nullable): cannot scan NULL into *string"%string |}.

(** A one-column answer whose second row holds NULL. *)
Definition nullName : Rows :=
  {| FieldDescriptions := ["name"%string];
     stream := [Decoded [VText "a"]; Decoded [VNil]];
     Err := None; elapsed := "1ms";
     ScanErr := fun _ =>
       "can't scan into dest[0] (col: name): cannot scan NULL into *string"%string |}.

(** * Properties *)

(** ** Texts *)

Module StringFacts.

Lemma app_cons c (s t : string) : String c s +:+ t = String c (s +:+ t).
Proof. reflexivity. Qed.

Lemma app_empty_l (s : string) : EmptyString +:+ s = s.
Proof. reflexivity. Qed.

Lemma app_empty_r (s : string) : s +:+ EmptyString = s.
Proof.
  induction s as [|c s IH]; [reflexivity|].
  rewrite app_cons. now rewrite IH.
Qed.

Lemma app_assoc (s t u : string) : (s +:+ t) +:+ u = s +:+ (t +:+ u).
Proof.
  induction s as [|c s IH]; [reflexivity|].
  rewrite !app_cons. now rewrite IH.
Qed.

Lemma app_eq_empty (s t : string) :
  s +:+ t = EmptyString -> s = EmptyString /\ t = EmptyString.
Proof.
  destruct s as [|c s]; [now rewrite app_empty_l|].
  rewrite app_cons. discriminate.
Qed.

Lemma allChars_app p (s t : string) :
  allChars p (s +:+ t) = allChars p s && allChars p t.
Proof.
  induction s as [|c s IH]; [reflexivity|].
  rewrite app_cons. simpl. rewrite IH. now rewrite andb_assoc.
Qed.

End StringFacts.

(** ** Derivatives decide the language of a pattern *)

Module RegexpFacts.
Import Regexp StringFacts.

Create HintDb re.
#[local] Hint Constructors matches : re.

Ltac invert H := inversion H; subst; clear H.

Lemma nullable_matches r : nullable r = true <-> matches r EmptyString.
Proof.
  induction r as [| |p|r1 IH1 r2 IH2|r1 IH1 r2 IH2|r IH]; simpl.
  - split; [discriminate|inversion 1].
  - split; auto with re.
  - split; [discriminate|inversion 1].
  - rewrite andb_true_iff, IH1, IH2. split.
    + intros [H1 H2]. change EmptyString with (EmptyString +:+ EmptyString).
      now constructor.
    + intros H. inversion H; subst.
      match goal with
      | E : _ +:+ _ = EmptyString |- _ => apply app_eq_empty in E as [-> ->]
      end.
      now split.
  - rewrite orb_true_iff, IH1, IH2. split.
    + intros [H|H]; auto with re.
    + inversion 1; subst; auto.
  - split; auto with re.
Qed.

(** A non-empty word of an iteration starts with a non-empty word of
    its body. *)
Lemma star_cons r c s :
  matches (Star r) (String c s) ->
  exists s1 s2,
    s = s1 +:+ s2 /\ matches r (String c s1) /\ matches (Star r) s2.
Proof.
  intros H. remember (Star r) as r' eqn:Er. remember (String c s) as w eqn:Ew.
  revert s Ew.
  induction H as [| | | | | |r0 s1 s2 H1 _ H2 IH2]; intros s' Ew;
    try discriminate.
  injection Er as ->.
  destruct s1 as [|c1 s1].
  - rewrite app_empty_l in Ew. now apply IH2.
  - rewrite app_cons in Ew. injection Ew as -> <-.
    exists s1, s2. auto.
Qed.

Lemma deriv_matches c r s :
  matches (deriv c r) s <-> matches r (String c s).
Proof.
  revert s.
  induction r as [| |p|r1 IH1 r2 IH2|r1 IH1 r2 IH2|r IH]; intros s; simpl.
  - split; inversion 1.
  - split; inversion 1.
  - destruct (p c) eqn:Hp; split.
    + inversion 1; subst. now constructor.
    + inversion 1; subst. constructor.
    + inversion 1.
    + inversion 1; subst. congruence.
  - assert (Hcat : matches (Cat (deriv c r1) r2) s ->
                   matches (Cat r1 r2) (String c s)).
    { intros H. invert H.
      rewrite <- app_cons. constructor; [now apply IH1|assumption]. }
    assert (Hinv : matches (Cat r1 r2) (String c s) ->
              (exists s1 s2, s = s1 +:+ s2 /\ matches (deriv c r1) s1
                             /\ matches r2 s2)
              \/ (matches r1 EmptyString /\ matches (deriv c r2) s)).
    { intros H. inversion H as [| |? ? s1 s2 H1 H2| | | |]; subst.
      match goal with E : _ +:+ _ = String c s |- _ => rename E into Es end.
      destruct s1 as [|c1 s1].
      - rewrite app_empty_l in Es. subst s2. right. split; [assumption|].
        now apply IH2.
      - rewrite app_cons in Es. injection Es as -> <-. left.
        exists s1, s2. split; [reflexivity|]. split; [now apply IH1|assumption]. }
    destruct (nullable r1) eqn:Hn; split.
    + inversion 1; subst; [now apply Hcat|].
      change (String c s) with (EmptyString +:+ String c s).
      constructor; [now apply nullable_matches|now apply IH2].
    + intros H. destruct (Hinv H) as [(s1 & s2 & -> & H1 & H2)|[_ H2]].
      * apply MAltL. now constructor.
      * now apply MAltR.
    + apply Hcat.
    + intros H. destruct (Hinv H) as [(s1 & s2 & -> & H1 & H2)|[H1 _]].
      * now constructor.
      * apply nullable_matches in H1. congruence.
  - split.
    + inversion 1; subst; [apply MAltL; now apply IH1|apply MAltR; now apply IH2].
    + inversion 1; subst; [apply MAltL; now apply IH1|apply MAltR; now apply IH2].
  - split.
    + intros H. invert H.
      rewrite <- app_cons. constructor; [now apply IH|assumption].
    + intros H. apply star_cons in H as (s1 & s2 & -> & H1 & H2).
      constructor; [now apply IH|assumption].
Qed.

Lemma matchWhole_matches r s : matchWhole r s = true <-> matches r s.
Proof.
  revert r. induction s as [|c s IH]; intros r; simpl.
  - apply nullable_matches.
  - rewrite IH. apply deriv_matches.
Qed.

Lemma matchPrefix_matches r s :
  matchPrefix r s = true <->
  exists m rest, s = m +:+ rest /\ matches r m.
Proof.
  revert r. induction s as [|c s IH]; intros r; simpl.
  - rewrite orb_false_r, nullable_matches. split.
    + intros H. now exists EmptyString, EmptyString.
    + intros (m & rest & E & H). symmetry in E.
      apply app_eq_empty in E as [-> _]. assumption.
  - rewrite orb_true_iff, nullable_matches, IH. split.
    + intros [H|(m & rest & -> & H)].
      * now exists EmptyString, (String c s).
      * exists (String c m), rest. split; [reflexivity|].
        now apply deriv_matches.
    + intros (m & rest & E & H). destruct m as [|c' m].
      * now left.
      * rewrite app_cons in E. injection E as <- ->. right.
        exists m, rest. split; [reflexivity|]. now apply deriv_matches.
Qed.

Lemma found_matches r s :
  found r s = true <->
  exists pre m rest, s = pre +:+ (m +:+ rest) /\ matches r m.
Proof.
  induction s as [|c s IH]; cbn [found].
  - rewrite orb_false_r, matchPrefix_matches. split.
    + intros (m & rest & E & H). now exists EmptyString, m, rest.
    + intros (pre & m & rest & E & H). symmetry in E.
      apply app_eq_empty in E as [-> E]. exists m, rest. now rewrite E.
  - rewrite orb_true_iff, matchPrefix_matches, IH. split.
    + intros [(m & rest & E & H)|(pre & m & rest & -> & H)].
      * now exists EmptyString, m, rest.
      * now exists (String c pre), m, rest.
    + intros (pre & m & rest & E & H). destruct pre as [|c' pre].
      * left. rewrite app_empty_l in E. eauto.
      * rewrite app_cons in E. injection E as <- ->. right. eauto.
Qed.

Lemma class_matches p m :
  matches (Class p) m <-> exists c, m = String c EmptyString /\ p c = true.
Proof.
  split.
  - inversion 1; subst. eauto.
  - intros (c & -> & H). now constructor.
Qed.

Lemma star_class_matches p m :
  matches (Star (Class p)) m <-> allChars p m = true.
Proof.
  split.
  - intros H. remember (Star (Class p)) as r eqn:Er.
    induction H as [| | | | | |r0 s1 s2 H1 _ H2 IH2]; try discriminate.
    + reflexivity.
    + injection Er as ->. apply class_matches in H1 as (c & -> & Hc).
      rewrite app_cons, app_empty_l. simpl. rewrite Hc. now apply IH2.
  - induction m as [|c m IH]; simpl; [constructor|].
    rewrite andb_true_iff. intros [Hc Hm].
    change (String c m) with (String c EmptyString +:+ m).
    constructor; [now constructor|now apply IH].
Qed.

End RegexpFacts.

(** ** The statement guard *)

Section StatementGuard.
Import Regexp StringFacts RegexpFacts.

Lemma semicolon_not_space : perlSpace GoStrings.semicolon = false.
Proof. reflexivity. Qed.

(** The words of [multiStmtRe]. *)
Lemma multiStmtRe_matches m :
  matches multiStmtRe m <->
  exists ws c,
    m = String GoStrings.semicolon (ws +:+ String c EmptyString)
    /\ isBlank ws = true /\ perlSpace c = false.
Proof.
  unfold multiStmtRe, isBlank. split.
  - intros H. invert H.
    match goal with
    | H1 : matches (Class _) _, H2 : matches (Cat _ _) _ |- _ =>
        apply class_matches in H1 as (c0 & -> & Hc0); invert H2
    end.
    match goal with
    | H1 : matches (Star _) _, H2 : matches (Class _) _ |- _ =>
        apply star_class_matches in H1;
        apply class_matches in H2 as (c & -> & Hc)
    end.
    apply Ascii.eqb_eq in Hc0 as <-.
    apply negb_true_iff in Hc. rewrite app_cons, app_empty_l. eauto.
  - intros (ws & c & -> & Hws & Hc).
    change (String GoStrings.semicolon (ws +:+ String c EmptyString))
      with (String GoStrings.semicolon EmptyString
            +:+ (ws +:+ String c EmptyString)).
    constructor.
    + constructor. apply Ascii.eqb_refl.
    + constructor; [now apply star_class_matches|].
      constructor. now rewrite Hc.
Qed.

Lemma hasMultipleStatements_iff q :
  hasMultipleStatements q = true <-> semicolonThenText q.
Proof.
  unfold hasMultipleStatements, semicolonThenText.
  rewrite found_matches. split.
  - intros (pre & m & rest & -> & H).
    apply multiStmtRe_matches in H as (ws & c & -> & Hws & Hc).
    exists pre, ws, c, rest. split; [|auto].
    now rewrite app_cons, app_assoc, app_cons, app_empty_l.
  - intros (pre & ws & c & post & -> & Hws & Hc).
    exists pre, (String GoStrings.semicolon (ws +:+ String c EmptyString)), post.
    split.
    + now rewrite app_cons, app_assoc, app_cons, app_empty_l.
    + apply multiStmtRe_matches. eauto.
Qed.

(** The only semicolon of [body ; ws] is the written one. *)
Lemma split_at_semicolon body ws pre x :
  noSemicolon body = true ->
  isBlank ws = true ->
  pre +:+ String GoStrings.semicolon x
  = body +:+ String GoStrings.semicolon ws ->
  pre = body /\ x = ws.
Proof.
  unfold noSemicolon, isBlank. intros Hb Hws. revert pre.
  induction body as [|b body IH]; intros pre E.
  - rewrite app_empty_l in E. destruct pre as [|a pre].
    + rewrite app_empty_l in E. injection E as ->. now split.
    + rewrite app_cons in E. injection E as -> E. subst ws.
      rewrite allChars_app in Hws. cbn [allChars] in Hws.
      rewrite semicolon_not_space in Hws.
      now rewrite andb_false_r in Hws.
  - cbn [allChars] in Hb. apply andb_true_iff in Hb as [Hb1 Hb2].
    rewrite app_cons in E. destruct pre as [|a pre].
    + rewrite app_empty_l in E. injection E as <- _.
      now rewrite Ascii.eqb_refl in Hb1.
    + rewrite app_cons in E. injection E as -> E.
      destruct (IH Hb2 pre E) as [-> ->]. now split.
Qed.

Lemma trailing_semicolon_single body ws :
  noSemicolon body = true ->
  isBlank ws = true ->
  hasMultipleStatements (body +:+ String GoStrings.semicolon ws) = false.
Proof.
  intros Hb Hws. apply not_true_is_false. intros H.
  apply hasMultipleStatements_iff in H
    as (pre & ws' & c & post & E & Hws' & Hc).
  symmetry in E. apply split_at_semicolon in E as [_ E]; [|assumption..].
  subst ws. unfold isBlank in Hws. rewrite allChars_app in Hws.
  cbn [allChars] in Hws. rewrite Hc in Hws.
  now rewrite andb_false_r in Hws.
Qed.

End StatementGuard.

(** C4. The statement guard classifies a query text as multi-statement
    exactly when the text contains a semicolon followed, after optional
    white space, by a byte that is not white space; a text whose only
    semicolon is trailing, followed by nothing or by white space only, is
    classified single-statement. *)
Theorem guard_classification (q body ws : string) :
  (hasMultipleStatements q = true <-> semicolonThenText q)
  /\ (noSemicolon body = true -> isBlank ws = true ->
      hasMultipleStatements (body +:+ String GoStrings.semicolon ws) = false).
Proof.
  split.
  - apply hasMultipleStatements_iff.
  - apply trailing_semicolon_single.
Qed.

Lemma guard_classification_witness :
  semicolonThenText "SELECT 1; SELECT 2"
  /\ hasMultipleStatements ("SELECT 1" +:+ String GoStrings.semicolon "  ")
     = false.
Proof.
  destruct (guard_classification "SELECT 1; SELECT 2" "SELECT 1" "  ")
    as [Hiff Htrail].
  split.
  - apply Hiff. reflexivity.
  - apply Htrail; reflexivity.
Defined.

(** ** The identifier quoter *)

Section IdentifierQuoter.
Import Regexp StringFacts RegexpFacts.

(** The words of [identRe]. *)
Lemma identRe_matches name :
  matches identRe name <-> plainIdentifier name.
Proof.
  unfold identRe, plainIdentifier. split.
  - intros H. invert H.
    match goal with
    | H1 : matches (Class _) _, H2 : matches (Star _) _ |- _ =>
        apply class_matches in H1 as (c & -> & Hc);
        apply star_class_matches in H2
    end.
    rewrite app_cons, app_empty_l. eauto.
  - intros (c & rest & -> & Hc & Hrest).
    change (String c rest) with (String c EmptyString +:+ rest).
    constructor; [now constructor|now apply star_class_matches].
Qed.

Lemma doubleQuotes_doubled name :
  quotesDoubled name (GoStrings.doubleQuotes name).
Proof.
  induction name as [|c name IH]; simpl; [constructor|].
  destruct (Ascii.eqb_spec c GoStrings.dquote) as [->|Hne].
  - now constructor.
  - now constructor.
Qed.

Lemma pgIdent_plain name : matches identRe name -> pgIdent name = name.
Proof.
  intros H. unfold pgIdent. apply matchWhole_matches in H. rewrite H.
  now destruct (String.eqb name EmptyString).
Qed.

Lemma pgIdent_other name :
  ~ matches identRe name -> name <> EmptyString ->
  pgIdent name = quoted (GoStrings.doubleQuotes name).
Proof.
  intros H Hne. unfold pgIdent.
  apply String.eqb_neq in Hne. rewrite Hne.
  destruct (matchWhole identRe name) eqn:Hm; [|reflexivity].
  apply matchWhole_matches in Hm. contradiction.
Qed.

End IdentifierQuoter.

(** C6. An identifier matching [^[a-z_][a-z0-9_]*$] is returned unchanged;
    any other non-empty identifier is returned between two double quotes
    with each of its double quotes doubled; the empty identifier is
    returned unchanged. *)
Theorem pgIdent_quoting (name : string) :
  (Regexp.matches identRe name -> pgIdent name = name)
  /\ (~ Regexp.matches identRe name -> name <> EmptyString ->
      exists body, pgIdent name = quoted body /\ quotesDoubled name body)
  /\ pgIdent EmptyString = EmptyString.
Proof.
  split; [apply pgIdent_plain|]. split; [|reflexivity].
  intros H Hne. exists (GoStrings.doubleQuotes name). split.
  - now apply pgIdent_other.
  - apply doubleQuotes_doubled.
Qed.

Lemma pgIdent_quoting_witness :
  pgIdent "public" = "public"%string
  /\ exists body,
       pgIdent "Orders" = quoted body /\ quotesDoubled "Orders" body.
Proof.
  split.
  - apply (proj1 (pgIdent_quoting "public")).
    apply RegexpFacts.matchWhole_matches. reflexivity.
  - apply (proj1 (proj2 (pgIdent_quoting "Orders"))).
    + intros H. apply RegexpFacts.matchWhole_matches in H. discriminate H.
    + discriminate.
Defined.

(** ** What the operations leave alone *)

Section Frames.

Variable pool : Pool.

Lemma selection_toast msg s : selection (toast msg s) = selection s.
Proof. reflexivity. Qed.

Lemma issued_toast msg s : issued (toast msg s) = issued s.
Proof. reflexivity. Qed.

Lemma display_toast msg s : display (toast msg s) = display s.
Proof. reflexivity. Qed.

Lemma selection_setTable tbl t s : selection (setTable tbl t s) = selection s.
Proof. now destruct tbl. Qed.

Lemma issued_setTable tbl t s : issued (setTable tbl t s) = issued s.
Proof. now destruct tbl. Qed.

Lemma getTable_setTable tbl t s : getTable tbl (setTable tbl t s) = t.
Proof. now destruct tbl. Qed.

Lemma getTable_toast tbl msg s : getTable tbl (toast msg s) = getTable tbl s.
Proof. now destruct tbl. Qed.

Lemma statusBar_toast msg s : statusBar (toast msg s) = ("[yellow]" +:+ msg).
Proof. reflexivity. Qed.

Lemma runQueryRows_frame tbl rows rs row s :
  selection (runQueryRows tbl rows row rs s) = selection s
  /\ issued (runQueryRows tbl rows row rs s) = issued s.
Proof.
  revert row s. induction rs as [|r rs IH]; intros row s; simpl.
  - now destruct (Err rows).
  - destruct (Values r) as [err|vals]; [now split|].
    destruct (IH (S row)
                (setTable tbl
                   (setRow (getTable tbl s) row (map stringify vals)) s))
      as [-> ->].
    now rewrite selection_setTable, issued_setTable.
Qed.

Lemma runQueryInto_selection q tbl s :
  selection (runQueryInto pool q tbl s) = selection s.
Proof.
  unfold runQueryInto. destruct (pool (textQuery q)) as [err|rows].
  - reflexivity.
  - rewrite (proj1 (runQueryRows_frame _ _ _ _ _)).
    now rewrite selection_setTable.
Qed.

Lemma runQueryInto_issued q tbl s :
  issued (runQueryInto pool q tbl s) = issued s ++ [textQuery q].
Proof.
  unfold runQueryInto. destruct (pool (textQuery q)) as [err|rows].
  - reflexivity.
  - rewrite (proj2 (runQueryRows_frame _ _ _ _ _)).
    now rewrite issued_setTable.
Qed.

Lemma loadColumnRows_frame rows rs row s :
  selection (loadColumnRows rows row rs s) = selection s
  /\ issued (loadColumnRows rows row rs s) = issued s.
Proof.
  revert row s. induction rs as [|r rs IH]; intros row s; simpl.
  - now split.
  - destruct (Scan3 rows r) as [err|[[name typ] nullable]]; [now split|].
    now destruct (IH (S row)
                    (with_columnTable
                       (setRow (columnTable s) row [name; typ; nullable]) s))
      as [-> ->].
Qed.

Lemma loadColumns_selection schema table s :
  selection (loadColumns pool schema table s) = selection s.
Proof.
  unfold loadColumns. destruct (pool (columnsQuery schema table)).
  - reflexivity.
  - now rewrite (proj1 (loadColumnRows_frame _ _ _ _)).
Qed.

Lemma loadColumns_issued schema table s :
  issued (loadColumns pool schema table s)
  = issued s ++ [columnsQuery schema table].
Proof.
  unfold loadColumns. destruct (pool (columnsQuery schema table)).
  - reflexivity.
  - now rewrite (proj2 (loadColumnRows_frame _ _ _ _)).
Qed.

Lemma previewTable_selection schema table s :
  selection (previewTable pool schema table s) = selection s.
Proof. apply runQueryInto_selection. Qed.

End Frames.

(** C7. For every schema name, table name and preview limit, the preview
    sends exactly one query, whose text is [SELECT * FROM], the quoted
    schema, a dot, the quoted table, [LIMIT] and the limit in decimal; for
    schema public, table Orders and limit 100 the text is
    SELECT * FROM public.[dq]Orders[dq] LIMIT 100, with [dq] the double
    quote. *)
Theorem previewTable_query (pool : Pool) (schema table : string)
    (s : AppState) :
  issued (previewTable pool schema table s)
  = issued s ++
    [textQuery ("SELECT * FROM " +:+ pgIdent schema +:+ "." +:+ pgIdent table
                +:+ " LIMIT " +:+ GoStrings.itoa (previewLimit s))]
  /\ (previewLimit s = 100%Z ->
      issued (previewTable pool "public" "Orders" s)
      = issued s ++
        [textQuery ("SELECT * FROM public." +:+
                    String GoStrings.dquote
                      ("Orders" +:+ String GoStrings.dquote " LIMIT 100"))]).
Proof.
  split.
  - unfold previewTable. rewrite runQueryInto_issued. unfold previewSQL.
    now rewrite !StringFacts.app_assoc.
  - intros Hl. unfold previewTable. rewrite runQueryInto_issued, Hl.
    reflexivity.
Qed.

Lemma previewTable_query_witness :
  issued (previewTable demo "public" "Orders" (initial 100))
  = [textQuery ("SELECT * FROM public." +:+
                String GoStrings.dquote
                  ("Orders" +:+ String GoStrings.dquote " LIMIT 100"))].
Proof.
  apply (proj2 (previewTable_query demo "public" "Orders" (initial 100))).
  reflexivity.
Defined.

(** ** The cells that the row loops write *)

Section Cells.

Lemma setRowFrom_text i v :
  (if (0 <? i)%nat then " | " +:+ v else v) = separator i +:+ v.
Proof. unfold separator. now destruct (0 <? i)%nat. Qed.

Lemma setRowFrom_other_row (row i : nat) (cols : list string) (t : Table)
    (r j : nat) :
  r <> row -> setRowFrom row i cols t !! (r, j) = t !! (r, j).
Proof.
  intros Hr. revert i t. induction cols as [|v cols IH]; intros i t; simpl.
  - reflexivity.
  - rewrite IH. apply lookup_insert_ne. congruence.
Qed.

Lemma setRowFrom_before (row i : nat) (cols : list string) (t : Table)
    (j : nat) :
  (j < i)%nat -> setRowFrom row i cols t !! (row, j) = t !! (row, j).
Proof.
  revert i t. induction cols as [|v cols IH]; intros i t Hj; simpl.
  - reflexivity.
  - rewrite IH by lia. apply lookup_insert_ne. intros [= E]. lia.
Qed.

Lemma setRowFrom_written (row i : nat) (cols : list string) (t : Table)
    (k : nat) (v : string) :
  cols !! k = Some v ->
  setRowFrom row i cols t !! (row, (i + k)%nat)
  = Some (dataCell (separator (i + k) +:+ v)).
Proof.
  revert i t k. induction cols as [|c cols IH]; intros i t k Hk.
  - discriminate.
  - destruct k as [|k]; simpl in *.
    + injection Hk as ->. rewrite Nat.add_0_r.
      rewrite setRowFrom_before by lia.
      rewrite lookup_insert_eq. now rewrite setRowFrom_text.
    + replace (i + S k)%nat with (S i + k)%nat by lia. now apply IH.
Qed.

Lemma setRow_written (t : Table) (row : nat) (cols : list string)
    (k : nat) (v : string) :
  cols !! k = Some v ->
  setRow t row cols !! (row, k) = Some (dataCell (separator k +:+ v)).
Proof. intros H. apply (setRowFrom_written row 0 cols t k v H). Qed.

Lemma lookup_stringify (vals : list Value) (i : nat) (v : Value) :
  vals !! i = Some v -> map stringify vals !! i = Some (stringify v).
Proof.
  revert i. induction vals as [|w vals IH]; intros [|i] H;
    try discriminate; simpl in *.
  - now injection H as ->.
  - now apply IH.
Qed.

Lemma fillFrom_below (row : nat) (cells : list (list string)) (t : Table)
    (r j : nat) :
  (r < row)%nat -> fillFrom row cells t !! (r, j) = t !! (r, j).
Proof.
  revert row t. induction cells as [|c cells IH]; intros row t Hr; simpl.
  - reflexivity.
  - rewrite IH by lia. apply setRowFrom_other_row. lia.
Qed.

Lemma fillFrom_app (row : nat) (cells1 cells2 : list (list string))
    (t : Table) :
  fillFrom row (cells1 ++ cells2) t
  = fillFrom (row + length cells1) cells2 (fillFrom row cells1 t).
Proof.
  revert row t. induction cells1 as [|c cells1 IH]; intros row t; simpl.
  - now rewrite Nat.add_0_r.
  - rewrite IH. f_equal. lia.
Qed.

Lemma setTable_getTable tbl s : setTable tbl (getTable tbl s) s = s.
Proof. now destruct tbl, s. Qed.

Lemma setTable_setTable tbl t1 t2 s :
  setTable tbl t2 (setTable tbl t1 s) = setTable tbl t2 s.
Proof. now destruct tbl. Qed.

(** The loop of [runQueryInto] over rows that decode. *)
Lemma runQueryRows_decoded tbl rows valss rest row s :
  runQueryRows tbl rows row (map Decoded valss ++ rest) s
  = runQueryRows tbl rows (row + length valss) rest
      (setTable tbl
         (fillFrom row (map (map stringify) valss) (getTable tbl s)) s).
Proof.
  revert row s. induction valss as [|vals valss IH]; intros row s; simpl.
  - now rewrite Nat.add_0_r, setTable_getTable.
  - rewrite IH, getTable_setTable, setTable_setTable. f_equal. lia.
Qed.

(** The rows below the row counter are out of the loop's reach. *)
Lemma runQueryRows_below tbl rows rs row s (r j : nat) :
  (r < row)%nat ->
  getTable tbl (runQueryRows tbl rows row rs s) !! (r, j)
  = getTable tbl s !! (r, j).
Proof.
  revert row s. induction rs as [|x rs IH]; intros row s Hr; simpl.
  - destruct (Err rows); now rewrite getTable_toast.
  - destruct (Values x) as [err|vals].
    + now rewrite getTable_toast.
    + rewrite IH by lia. rewrite getTable_setTable.
      apply setRowFrom_other_row. lia.
Qed.

End Cells.

(** C8. In a materialized result row, the cell of a [nil] value holds the
    text NULL and the cell of any other value holds the text that
    [fmt.Sprint] gives it, each after the column separator of [setRow];
    the text of a NULL cell differs from the text of an empty string. *)
Theorem null_cells (pool : Pool) (q : string) (tbl : TableRef)
    (s : AppState) (rows : Rows) (before : list (list Value))
    (vals : list Value) (after : list Row) (i : nat) (v : Value) :
  pool (textQuery q) = Opened rows ->
  stream rows = map Decoded before ++ Decoded vals :: after ->
  vals !! i = Some v ->
  getTable tbl (runQueryInto pool q tbl s) !! (S (length before), i)
  = Some (dataCell (separator i +:+ stringify v))
  /\ (v = VNil -> stringify v = "NULL"%string)
  /\ (v <> VNil -> stringify v = Sprint v)
  /\ stringify VNil <> stringify (VText EmptyString).
Proof.
  intros Hpool Hstream Hv. split; [|split; [|split]].
  - unfold runQueryInto. rewrite Hpool, Hstream.
    rewrite runQueryRows_decoded. simpl.
    rewrite runQueryRows_below by lia.
    rewrite !getTable_setTable.
    apply setRow_written. now apply lookup_stringify.
  - now intros ->.
  - destruct v; [congruence|reflexivity..].
  - discriminate.
Qed.

Lemma null_cells_witness :
  resultTable
    (runQueryInto demo "SELECT id, name FROM analytics.events" ResultTable
       (initial 100)) !! (1%nat, 1%nat)
  = Some (dataCell " | NULL").
Proof.
  apply (proj1 (null_cells demo "SELECT id, name FROM analytics.events"
                  ResultTable (initial 100) twoRows [] [VInt 1; VNil]
                  [Decoded [VInt 2; VText ""]] 1 VNil
                  eq_refl eq_refl eq_refl)).
Defined.

(** ** Ad-hoc queries *)

Section Adhoc.

Variable pool : Pool.

Lemma trimLeft_blank q :
  allChars GoStrings.asciiSpace q = true ->
  GoStrings.trimLeft q = EmptyString.
Proof.
  induction q as [|c q IH]; [reflexivity|].
  cbn [allChars]. intros [Hc Hq]%andb_true_iff.
  cbn [GoStrings.trimLeft]. rewrite Hc. now apply IH.
Qed.

Lemma TrimSpace_blank q :
  allChars GoStrings.asciiSpace q = true ->
  GoStrings.TrimSpace q = EmptyString.
Proof.
  intros H. unfold GoStrings.TrimSpace. now rewrite trimLeft_blank.
Qed.

Lemma runAdhocQuery_empty q s :
  GoStrings.TrimSpace q = EmptyString -> runAdhocQuery pool q s = s.
Proof. intros H. unfold runAdhocQuery. now rewrite H. Qed.

Lemma runAdhocQuery_refused q s :
  hasMultipleStatements (GoStrings.TrimSpace q) = true ->
  runAdhocQuery pool q s
  = toast "Multiple statements detected; please run one at a time." s.
Proof.
  intros H. unfold runAdhocQuery. rewrite H.
  destruct (String.eqb_spec (GoStrings.TrimSpace q) EmptyString) as [E|_];
    [|reflexivity].
  rewrite E in H. discriminate H.
Qed.

End Adhoc.

(** C10. An ad-hoc input that is empty after trimming, in particular one
    made of white space only, leaves the whole state as it was: no query
    is sent, no notification is posted, and the tables and the selection
    are unchanged. *)
Theorem adhoc_blank_noop (pool : Pool) (q : string) (s : AppState) :
  (GoStrings.TrimSpace q = EmptyString -> runAdhocQuery pool q s = s)
  /\ (allChars GoStrings.asciiSpace q = true -> runAdhocQuery pool q s = s).
Proof.
  split.
  - apply runAdhocQuery_empty.
  - intros H. apply runAdhocQuery_empty. now apply TrimSpace_blank.
Qed.

Lemma adhoc_blank_noop_witness :
  runAdhocQuery demo "   " (initial 100) = initial 100.
Proof.
  apply (proj1 (adhoc_blank_noop demo "   " (initial 100))). reflexivity.
Defined.

(** C5, as amended. An ad-hoc input whose text after [strings.TrimSpace]
    the statement guard classifies as multi-statement is refused: the
    notification is posted, no query is sent, and the tables and the
    selection are unchanged. *)
Theorem adhoc_multi_refused (pool : Pool) (q : string) (s : AppState) :
  hasMultipleStatements (GoStrings.TrimSpace q) = true ->
  statusBar (runAdhocQuery pool q s)
  = "[yellow]Multiple statements detected; please run one at a time."%string
  /\ issued (runAdhocQuery pool q s) = issued s
  /\ display (runAdhocQuery pool q s) = display s
  /\ selection (runAdhocQuery pool q s) = selection s.
Proof.
  intros H. rewrite (runAdhocQuery_refused pool q s H). now repeat split.
Qed.

Lemma adhoc_multi_refused_witness :
  statusBar (runAdhocQuery demo " SELECT 1; SELECT 2 " (initial 100))
  = "[yellow]Multiple statements detected; please run one at a time."%string
  /\ issued (runAdhocQuery demo " SELECT 1; SELECT 2 " (initial 100)) = []
  /\ display (runAdhocQuery demo " SELECT 1; SELECT 2 " (initial 100))
     = display (initial 100)
  /\ selection (runAdhocQuery demo " SELECT 1; SELECT 2 " (initial 100))
     = selection (initial 100).
Proof.
  apply (adhoc_multi_refused demo " SELECT 1; SELECT 2 " (initial 100)).
  reflexivity.
Defined.

(** C5, as stated, fails: the guard classifies the text [SELECT 1;]
    followed by a no-break space as multi-statement (the no-break space is
    not in [\s]), but [runAdhocQuery] trims the no-break space away before
    it asks the guard, and sends the query. *)
Lemma adhoc_guard_counterexample :
  hasMultipleStatements selectOneNbsp = true
  /\ issued (runAdhocQuery offline selectOneNbsp (initial 100))
     = [textQuery "SELECT 1;"]
  /\ statusBar (runAdhocQuery offline selectOneNbsp (initial 100))
     = "[yellow]query error: connection refused"%string.
Proof. repeat split; reflexivity. Qed.

(** ** The query executor *)

(** C1, as amended. A query that the pool refuses produces the failure
    notification only: the tables and the selection are unchanged.  A
    failure during the iteration (a row that does not decode, or the
    terminal error of the cursor) produces the failure notification too,
    but the target table, cleared before the iteration, then holds the new
    headers and the rows materialized before the failure. *)
Theorem failed_query_outcome (pool : Pool) (q : string) (tbl : TableRef)
    (s : AppState) :
  (forall err,
      pool (textQuery q) = Refused err ->
      statusBar (runQueryInto pool q tbl s) = ("[yellow]query error: " +:+ err)
      /\ display (runQueryInto pool q tbl s) = display s
      /\ selection (runQueryInto pool q tbl s) = selection s)
  /\ (forall rows valss err after,
         pool (textQuery q) = Opened rows ->
         stream rows = map Decoded valss ++ Undecodable err :: after ->
         statusBar (runQueryInto pool q tbl s) = ("[yellow]row error: " +:+ err)
         /\ getTable tbl (runQueryInto pool q tbl s)
            = rendered (FieldDescriptions rows) valss)
  /\ (forall rows valss err,
         pool (textQuery q) = Opened rows ->
         stream rows = map Decoded valss ->
         Err rows = Some err ->
         statusBar (runQueryInto pool q tbl s) = ("[yellow]rows err: " +:+ err)
         /\ getTable tbl (runQueryInto pool q tbl s)
            = rendered (FieldDescriptions rows) valss).
Proof.
  split; [|split].
  - intros err Hpool. unfold runQueryInto. rewrite Hpool. now repeat split.
  - intros rows valss err after Hpool Hstream.
    unfold runQueryInto. rewrite Hpool, Hstream, runQueryRows_decoded.
    simpl. rewrite getTable_toast, !getTable_setTable. now split.
  - intros rows valss err Hpool Hstream Herr.
    unfold runQueryInto. rewrite Hpool, Hstream.
    rewrite <- (app_nil_r (map Decoded valss)), runQueryRows_decoded.
    simpl. rewrite Herr, getTable_toast, !getTable_setTable. now split.
Qed.

Lemma failed_query_outcome_witness :
  statusBar
    (runQueryInto demo "SELECT * FROM analytics.events LIMIT 100" ResultTable
       (initial 100))
  = "[yellow]row error: invalid byte sequence"%string
  /\ resultTable
       (runQueryInto demo "SELECT * FROM analytics.events LIMIT 100"
          ResultTable (initial 100))
     = rendered ["id"; "name"]%string [[VInt 1; VNil]].
Proof.
  apply (proj1 (proj2 (failed_query_outcome demo
                         "SELECT * FROM analytics.events LIMIT 100"
                         ResultTable (initial 100)))
           brokenPreview [[VInt 1; VNil]] "invalid byte sequence"%string
           [Decoded [VInt 3; VText "c"]]);
    reflexivity.
Defined.

(** C1, as stated, fails: a result with two rows is on display, the
    preview of the same table then fails at its second row, and the
    result table no longer holds the earlier result but the headers and
    the first row of the failed query. *)
Lemma failed_query_counterexample :
  let before :=
    runQueryInto demo "SELECT id, name FROM analytics.events" ResultTable
      (initial 100) in
  let after :=
    runQueryInto demo "SELECT * FROM analytics.events LIMIT 100" ResultTable
      before in
  statusBar after = "[yellow]row error: invalid byte sequence"%string
  /\ resultTable before !! (2%nat, 0%nat) = Some (dataCell "2")
  /\ resultTable after !! (2%nat, 0%nat) = None
  /\ resultTable after !! (1%nat, 0%nat) = Some (dataCell "1")
  /\ resultTable after <> resultTable before.
Proof.
  intros before after.
  assert (H2 : resultTable after !! (2%nat, 0%nat) = None) by reflexivity.
  assert (H2' : resultTable before !! (2%nat, 0%nat) = Some (dataCell "2"))
    by reflexivity.
  repeat split; try reflexivity.
  intros E. rewrite E in H2. rewrite H2' in H2. discriminate H2.
Qed.

(** ** Notifications *)

Section Notifications.

Lemma reverts_status (woken : list nat) (s : AppState) :
  woken <> [] ->
  statusBar (fold_right (fun _ s' => revert s') s woken) = idleStatus.
Proof. destruct woken; [congruence|reflexivity]. Qed.

Lemma reverts_none (s : AppState) :
  fold_right (fun (_ : nat) s' => revert s') s [] = s.
Proof. reflexivity. Qed.

Lemma reverts_clock (woken : list nat) (s : AppState) :
  now (fold_right (fun _ s' => revert s') s woken) = now s
  /\ sleepers (fold_right (fun _ s' => revert s') s woken) = sleepers s.
Proof. induction woken as [|w woken IH]; [now split|apply IH]. Qed.

Lemma now_elapse d s : now (elapse d s) = now s + d.
Proof. unfold elapse. now rewrite (proj1 (reverts_clock _ _)). Qed.

Lemma sleepers_elapse d s :
  sleepers (elapse d s)
  = List.filter (fun w => negb (w <=? now s + d)) (sleepers s).
Proof. unfold elapse. now rewrite (proj2 (reverts_clock _ _)). Qed.

(** A goroutine whose sleep ends within [d] sets the idle text,
    whatever the status bar shows. *)
Lemma elapse_due d s w :
  In w (sleepers s) -> w <= now s + d ->
  statusBar (elapse d s) = idleStatus.
Proof.
  intros Hin Hle. unfold elapse. apply reverts_status.
  intros E.
  assert (Hw : In w (List.filter (fun w => w <=? now s + d) (sleepers s))).
  { apply List.filter_In. split; [assumption|]. now apply Nat.leb_le. }
  rewrite E in Hw. destruct Hw.
Qed.

(** While every goroutine is still asleep the status bar keeps its
    text. *)
Lemma elapse_early d s :
  (forall w, In w (sleepers s) -> now s + d < w) ->
  statusBar (elapse d s) = statusBar s.
Proof.
  intros H. unfold elapse.
  assert (E : List.filter (fun w => w <=? now s + d) (sleepers s) = []).
  { induction (sleepers s) as [|w l IH]; [reflexivity|]. simpl.
    destruct (Nat.leb_spec w (now s + d)) as [Hle|Hgt].
    - specialize (H w (or_introl eq_refl)). lia.
    - apply IH. intros w' Hw'. apply H. now right. }
  now rewrite E.
Qed.

Lemma first_sleeper_pending m1 m2 d1 s :
  d1 < revertDelay ->
  In (now s + revertDelay)
    (sleepers (toast m2 (elapse d1 (toast m1 s)))).
Proof.
  intros Hd. cbn [toast sleepers with_clock].
  apply in_or_app. left. rewrite sleepers_elapse.
  apply List.filter_In. split.
  - cbn [toast sleepers with_clock]. apply in_or_app. right. now left.
  - apply negb_true_iff, Nat.leb_gt. cbn [toast now with_clock with_statusBar].
    lia.
Qed.

End Notifications.

(** C2, as amended. Every notification starts a revert that fires three
    seconds after its own post and sets the idle text unconditionally:
    when a second notification is posted [d1] milliseconds after a first,
    with [d1] below the delay, the status bar shows the idle text once the
    delay of the first has elapsed, although the second is then displayed
    for less than three seconds. *)
Theorem stale_revert_fires (s : AppState) (m1 m2 : string) (d1 d2 : nat) :
  d1 < revertDelay ->
  revertDelay <= d1 + d2 ->
  statusBar (toast m2 (elapse d1 (toast m1 s))) = ("[yellow]" +:+ m2)
  /\ statusBar (elapse d2 (toast m2 (elapse d1 (toast m1 s)))) = idleStatus.
Proof.
  intros H1 H2. split; [reflexivity|].
  apply (elapse_due d2 _ (now s + revertDelay)).
  - now apply first_sleeper_pending.
  - cbn [toast now with_clock]. rewrite now_elapse.
    cbn [toast now with_clock with_statusBar]. lia.
Qed.

Lemma stale_revert_fires_witness :
  statusBar (toast "second" (elapse 1000 (toast "first" (initial 100))))
  = "[yellow]second"%string
  /\ statusBar
       (elapse 2000 (toast "second" (elapse 1000 (toast "first" (initial 100)))))
     = idleStatus.
Proof.
  apply (stale_revert_fires (initial 100) "first" "second" 1000 2000).
  - unfold revertDelay. lia.
  - unfold revertDelay. lia.
Defined.

(** C2, as stated, fails: a second notification is posted one second
    after a first; two seconds later the revert of the first has replaced
    the second by the idle text, and the revert of the second is still
    pending. *)
Lemma stale_revert_counterexample :
  let posted := toast "second" (elapse 1000 (toast "first" (initial 100))) in
  statusBar posted = "[yellow]second"%string
  /\ sleepers posted = [3000; 4000]
  /\ now (elapse 2000 posted) = 3000
  /\ sleepers (elapse 2000 posted) = [4000]
  /\ statusBar (elapse 2000 posted) = idleStatus
  /\ statusBar (elapse 2000 posted) <> statusBar posted.
Proof. intros posted. repeat split; try reflexivity. discriminate. Qed.

(** ** Sorting *)

Section Sorting.

Lemma leS_trans a b c : leS a b -> leS b c -> leS a c.
Proof.
  unfold leS. intros H1 H2.
  apply Is_true_true. apply Is_true_true in H1, H2.
  exact (@transitivity _ String.le _ a b c H1 H2).
Qed.

Lemma leS_total a b : leS a b \/ leS b a.
Proof. apply String.leb_total. Qed.

Lemma insertSorted_perm x l : Permutation (insertSorted x l) (x :: l).
Proof.
  induction l as [|y l IH]; simpl; [reflexivity|].
  destruct (String.leb x y); [reflexivity|].
  rewrite IH. apply perm_swap.
Qed.

Lemma sortStrings_perm l : Permutation (sortStrings l) l.
Proof.
  induction l as [|x l IH]; simpl; [reflexivity|].
  rewrite insertSorted_perm. now constructor.
Qed.

Lemma insertSorted_sorted x l :
  StronglySorted leS l -> StronglySorted leS (insertSorted x l).
Proof.
  induction l as [|y l IH]; intros Hs; simpl.
  - repeat constructor.
  - inversion Hs as [|? ? Hl Hy]; subst.
    destruct (String.leb x y) eqn:Hxy.
    + constructor; [assumption|]. constructor; [exact Hxy|].
      eapply List.Forall_impl; [|exact Hy]. intros z Hz.
      now apply (leS_trans x y z).
    + constructor; [now apply IH|].
      apply List.Forall_forall. intros z Hz.
      apply (Permutation_in _ (insertSorted_perm x l)) in Hz.
      destruct Hz as [<-|Hz].
      * destruct (leS_total x y) as [H|H]; [unfold leS in H; congruence|exact H].
      * rewrite List.Forall_forall in Hy. now apply Hy.
Qed.

Lemma sortStrings_sorted l : StronglySorted leS (sortStrings l).
Proof.
  induction l as [|x l IH]; simpl; [constructor|].
  now apply insertSorted_sorted.
Qed.

(** The result of sorting does not depend on the algorithm: a sorted
    arrangement of given strings is unique. *)
Lemma sorted_unique l1 l2 :
  StronglySorted leS l1 -> StronglySorted leS l2 ->
  Permutation l1 l2 -> l1 = l2.
Proof.
  revert l2. induction l1 as [|x l1 IH]; intros l2 H1 H2 Hp.
  - apply Permutation_nil in Hp. now subst.
  - destruct l2 as [|y l2].
    { symmetry in Hp. now apply Permutation_nil in Hp. }
    inversion H1 as [|? ? Hl1 Hx]; subst.
    inversion H2 as [|? ? Hl2 Hy]; subst.
    rewrite List.Forall_forall in Hx, Hy.
    assert (E : x = y).
    { assert (Hxin : In x (y :: l2))
        by (apply (Permutation_in _ Hp); now left).
      assert (Hyin : In y (x :: l1))
        by (apply (Permutation_in _ (Permutation_sym Hp)); now left).
      destruct Hxin as [->|Hxin]; [reflexivity|].
      destruct Hyin as [->|Hyin]; [reflexivity|].
      apply String.leb_antisym; [now apply Hx|now apply Hy]. }
    subst y. f_equal. apply IH; try assumption.
    now apply Permutation_cons_inv in Hp.
Qed.

End Sorting.

(** ** The catalog navigator *)

Section Navigator.

Variable pool : Pool.

Lemma scanNames_nameRows rows names :
  scanNames rows (nameRows names) = inr names.
Proof.
  induction names as [|n names IH]; [reflexivity|].
  unfold nameRows in *. cbn [map scanNames Scan1]. now rewrite IH.
Qed.

Lemma addItemsFrom_texts i xs l :
  map mainText (addItemsFrom i xs l) = map mainText l ++ xs.
Proof.
  revert i l. induction xs as [|x xs IH]; intros i l; simpl.
  - now rewrite app_nil_r.
  - rewrite IH, map_app. simpl. now rewrite <- app_assoc.
Qed.

Lemma addItems_texts xs : map mainText (addItems xs []) = xs.
Proof. unfold addItems. now rewrite addItemsFrom_texts. Qed.

(** The selection after [loadTables], by the answer of the database. *)
Lemma loadTables_selection schema s :
  selection (loadTables pool schema s)
  = match pool (tablesQuery schema) with
    | Refused _ => selection s
    | Opened rows =>
        match scanNames rows (stream rows) with
        | inr (t :: ts) =>
            selection
              (with_currentTable t
                 (with_tableList (addItems (t :: ts) []) s))
        | _ => selection (with_tableList [] s)
        end
    end.
Proof.
  unfold loadTables. destruct (pool (tablesQuery schema)) as [err|rows].
  - reflexivity.
  - destruct (scanNames rows (stream rows)) as [err|[|t ts]]; try reflexivity.
    now rewrite previewTable_selection, loadColumns_selection.
Qed.

Lemma loadTables_issued schema s :
  exists later,
    issued (loadTables pool schema s)
    = issued s ++ tablesQuery schema :: later.
Proof.
  unfold loadTables. destruct (pool (tablesQuery schema)) as [err|rows].
  - now exists [].
  - destruct (scanNames rows (stream rows)) as [err|[|t ts]].
    + now exists [].
    + now exists [].
    + eexists. unfold previewTable.
      rewrite runQueryInto_issued, loadColumns_issued. simpl.
      rewrite <- !app_assoc. reflexivity.
Qed.

Lemma loadTables_schema schema s :
  currentSchema (loadTables pool schema s) = currentSchema s
  /\ schemaList (loadTables pool schema s) = schemaList s.
Proof.
  pose proof (loadTables_selection schema s) as H.
  destruct (pool (tablesQuery schema)) as [err|rows].
  - injection H as -> _ -> _ _. now split.
  - destruct (scanNames rows (stream rows)) as [err|[|t ts]];
      injection H as -> _ -> _ _; now split.
Qed.

Lemma tableListed_selection s s' :
  selection s' = selection s -> tableListed s -> tableListed s'.
Proof.
  unfold tableListed. intros H. injection H as _ -> _ -> _. auto.
Qed.

Lemma loadTables_listed schema s :
  tableListed s -> tableListed (loadTables pool schema s).
Proof.
  intros Hs. pose proof (loadTables_selection schema s) as H.
  destruct (pool (tablesQuery schema)) as [err|rows].
  - now apply (tableListed_selection s).
  - unfold tableListed.
    destruct (scanNames rows (stream rows)) as [err|[|t ts]];
      injection H as _ -> _ -> _; simpl; try congruence.
    intros _. rewrite addItems_texts. now left.
Qed.

Lemma loadSchemas_listed s :
  tableListed s -> tableListed (fst (loadSchemas pool s)).
Proof.
  intros Hs. unfold loadSchemas.
  destruct (pool schemataQuery) as [err|rows]; [exact Hs|].
  destruct (scanNames rows (stream rows)) as [err|schemas]; [exact Hs|].
  simpl. destruct (sortStrings schemas) as [|sc scs]; [exact Hs|].
  apply loadTables_listed. exact Hs.
Qed.

Lemma selectTable_listed item s :
  In item (tableList s) -> tableListed (selectTable pool (mainText item) s).
Proof.
  intros Hin. unfold selectTable.
  eapply tableListed_selection.
  - rewrite previewTable_selection, loadColumns_selection. reflexivity.
  - intros _. simpl. now apply in_map.
Qed.

Lemma runAdhocQuery_selection q s :
  selection (runAdhocQuery pool q s) = selection s.
Proof.
  unfold runAdhocQuery.
  destruct (String.eqb (GoStrings.TrimSpace q) EmptyString); [reflexivity|].
  destruct (hasMultipleStatements (GoStrings.TrimSpace q)); [reflexivity|].
  apply runQueryInto_selection.
Qed.

End Navigator.

Lemma elapse_selection d s : selection (elapse d s) = selection s.
Proof.
  unfold elapse.
  induction (List.filter (fun w => w <=? now s + d) (sleepers s))
    as [|w l IH]; [reflexivity|exact IH].
Qed.

Lemma step_listed s s' : step s s' -> tableListed s -> tableListed s'.
Proof.
  intros Hstep Hs. destruct Hstep as [pool item s _|pool item s Hin|pool s|pool q s|d s].
  - unfold selectSchema. now apply loadTables_listed.
  - now apply selectTable_listed.
  - unfold refresh. apply (tableListed_selection (fst (loadSchemas pool s)));
      [reflexivity|now apply loadSchemas_listed].
  - apply (tableListed_selection s); [apply runAdhocQuery_selection|exact Hs].
  - apply (tableListed_selection s); [apply elapse_selection|exact Hs].
Qed.

Lemma startup_listed pool limit : tableListed (startup pool (initial limit)).
Proof.
  unfold startup.
  pose proof (loadSchemas_listed pool (initial limit)) as H.
  destruct (loadSchemas pool (initial limit)) as [s [e|]]; simpl in H.
  - apply (tableListed_selection s); [reflexivity|].
    apply H. intros Hne. now contradiction Hne.
  - apply (tableListed_selection s); [reflexivity|].
    apply H. intros Hne. now contradiction Hne.
Qed.

Lemma reachable_listed s : reachable s -> tableListed s.
Proof.
  induction 1 as [pool limit|s s' _ IH Hstep].
  - apply startup_listed.
  - now apply (step_listed s).
Qed.

(** The schema query names the excluded schemas in its [WHERE] clause and
    nothing else restricts it. *)
Lemma schemataSQL_excludes :
  schemataSQL
  = indent +:+ "SELECT schema_name" +:+
    indent +:+ "FROM information_schema.schemata" +:+
    indent +:+ "WHERE schema_name NOT IN (" +:+ sqlLiterals excludedSchemas
    +:+ ")" +:+
    indent +:+ "ORDER BY schema_name".
Proof. reflexivity. Qed.

Lemma visibleSchema_iff n : visibleSchema n = true <-> ~ In n excludedSchemas.
Proof.
  unfold visibleSchema. rewrite negb_true_iff. split.
  - intros H Hin. apply not_true_iff_false in H. apply H.
    apply existsb_exists. exists n. split; [assumption|apply String.eqb_refl].
  - intros H. apply not_true_iff_false. intros He.
    apply existsb_exists in He as (x & Hx & E).
    apply String.eqb_eq in E. now subst.
Qed.

(** The state after [loadSchemas] when every row of the answer scans. *)
Lemma loadSchemas_scanned pool rows names s :
  pool schemataQuery = Opened rows ->
  stream rows = nameRows names ->
  map mainText (schemaList (fst (loadSchemas pool s))) = sortStrings names
  /\ (forall first rest,
         sortStrings names = first :: rest ->
         currentSchema (fst (loadSchemas pool s)) = first
         /\ exists later,
              issued (fst (loadSchemas pool s))
              = issued s ++ schemataQuery :: tablesQuery first :: later).
Proof.
  intros Hpool Hstream. unfold loadSchemas.
  rewrite Hpool, Hstream, scanNames_nameRows.
  destruct (sortStrings names) as [|sc scs] eqn:Hsort; cbn [fst].
  - split; [reflexivity|]. intros first rest [=].
  - destruct (loadTables_schema pool sc
                (with_currentSchema sc
                   (with_schemaList
                      (addItems (sc :: scs)
                         (schemaList (with_schemaList [] (send schemataQuery s))))
                      (with_schemaList [] (send schemataQuery s)))))
      as [Hcur Hlist].
    cbn [currentSchema with_currentSchema] in *.
    split.
    + rewrite Hlist. cbn [schemaList with_currentSchema with_schemaList].
      apply addItems_texts.
    + intros first rest [= <- <-]. split; [exact Hcur|].
      destruct (loadTables_issued pool sc
                  (with_currentSchema sc
                     (with_schemaList
                        (addItems (sc :: scs)
                           (schemaList
                              (with_schemaList [] (send schemataQuery s))))
                        (with_schemaList [] (send schemataQuery s)))))
        as [later Hlater].
      exists later. rewrite Hlater.
      cbn [issued with_currentSchema with_schemaList send with_issued].
      now rewrite <- app_assoc.
Qed.

(** What [loadSchemas] makes of an answer that delivers, in any order, the
    visible names of a catalog. *)
Lemma loadSchemas_delivered (pool : Pool) (catalog names : list string)
    (rows : Rows) (s : AppState) :
  pool schemataQuery = Opened rows ->
  stream rows = nameRows names ->
  Permutation names (List.filter visibleSchema catalog) ->
  let s' := fst (loadSchemas pool s) in
  let shown := map mainText (schemaList s') in
  Permutation shown (List.filter visibleSchema catalog)
  /\ (forall n, In n shown <-> In n catalog /\ ~ In n excludedSchemas)
  /\ StronglySorted leS shown
  /\ (forall first rest,
         shown = first :: rest ->
         currentSchema s' = first
         /\ (forall n, In n shown -> leS first n)
         /\ exists later,
              issued s' = issued s ++ schemataQuery :: tablesQuery first :: later).
Proof.
  intros Hpool Hstream Hperm s' shown.
  destruct (loadSchemas_scanned pool rows names s Hpool Hstream)
    as [Hshown Hfirst].
  fold s' in Hshown, Hfirst. fold shown in Hshown.
  assert (Hp : Permutation shown (List.filter visibleSchema catalog)).
  { rewrite Hshown. now rewrite sortStrings_perm. }
  split; [exact Hp|]. split; [|split].
  - intros n. split.
    + intros Hin. apply (Permutation_in _ Hp) in Hin.
      apply List.filter_In in Hin as [Hc Hv]. split; [exact Hc|].
      now apply visibleSchema_iff.
    + intros [Hc Hv]. apply (Permutation_in _ (Permutation_sym Hp)).
      apply List.filter_In. split; [exact Hc|]. now apply visibleSchema_iff.
  - rewrite Hshown. apply sortStrings_sorted.
  - intros first rest E. rewrite Hshown in E.
    destruct (Hfirst first rest E) as [Hcur Hsent].
    split; [exact Hcur|]. split; [|exact Hsent].
    intros n Hn. rewrite Hshown, E in Hn.
    pose proof (sortStrings_sorted names) as Hs. rewrite E in Hs.
    apply StronglySorted_inv in Hs as [_ Hall].
    destruct Hn as [Hn|Hn].
    + rewrite <- Hn. destruct (leS_total first first) as [H|H]; exact H.
    + rewrite List.Forall_forall in Hall. now apply Hall.
Qed.

(** The schema query of the program is read as the exclusion of the three
    schemas it names. *)
Lemma schemataQuery_read :
  readSchemataQuery (sql schemataQuery) = Some excludedSchemas
  /\ args schemataQuery = [].
Proof. split; reflexivity. Qed.

(** C9. Against a database that holds the schema names [catalog] and
    answers the schema query as the program sends it, [loadSchemas] lists
    exactly the names of the catalog other than pg_toast, pg_temp_1 and
    pg_toast_temp_1, in ascending order; when there is at least one, the
    smallest is the current schema and the table query for it has been
    sent. *)
Theorem loadSchemas_catalog (order : list string -> list string)
    (catalog : list string) (rest : Pool) (s : AppState) :
  (forall l, Permutation (order l) l) ->
  let s' := fst (loadSchemas (postgres order catalog rest) s) in
  let shown := map mainText (schemaList s') in
  (forall n,
      In n shown <->
      In n catalog
      /\ ~ In n ["pg_toast"; "pg_temp_1"; "pg_toast_temp_1"]%string)
  /\ Permutation shown
       (List.filter
          (fun n =>
             negb (existsb (String.eqb n)
                     ["pg_toast"; "pg_temp_1"; "pg_toast_temp_1"]%string))
          catalog)
  /\ StronglySorted leS shown
  /\ (forall first others,
         shown = first :: others ->
         currentSchema s' = first
         /\ (forall n, In n shown -> leS first n)
         /\ exists later,
              issued s' = issued s ++ schemataQuery :: tablesQuery first :: later).
Proof.
  intros Horder s' shown.
  destruct (loadSchemas_delivered (postgres order catalog rest) catalog
              (order (List.filter visibleSchema catalog))
              {| FieldDescriptions := ["schema_name"%string];
                 stream := nameRows (order (List.filter visibleSchema catalog));
                 Err := None; elapsed := EmptyString;
                 ScanErr := fun _ => EmptyString |}
              s eq_refl eq_refl (Horder _))
    as (Hperm & Hin & Hsorted & Hfirst).
  split; [exact Hin|]. split; [exact Hperm|]. split; [exact Hsorted|].
  exact Hfirst.
Qed.

Lemma loadSchemas_catalog_witness :
  let s' :=
    fst (loadSchemas
           (postgres (fun l => l) ["public"; "pg_toast"; "analytics"]%string
              demo)
           (initial 100)) in
  map mainText (schemaList s') = ["analytics"; "public"]%string
  /\ currentSchema s' = "analytics"%string
  /\ StronglySorted leS (map mainText (schemaList s')).
Proof.
  intros s'.
  destruct (loadSchemas_catalog (fun l => l)
              ["public"; "pg_toast"; "analytics"]%string demo (initial 100)
              (fun l => Permutation_refl l))
    as (_ & _ & Hsorted & Hfirst).
  split; [reflexivity|]. split; [|exact Hsorted].
  exact (proj1 (Hfirst "analytics"%string ["public"%string] eq_refl)).
Defined.

(** C3, as amended. In every reachable state, when the table list shows
    tables the current table is one of them.  [selectSchema] sets the
    current schema to the name and sends the table query for it, and does
    not clear the current table: the current table becomes the first table
    when the load delivers tables, and keeps its value when the load
    delivers none or fails. *)
Theorem navigator_selection (pool : Pool) (name : string)
    (s reached : AppState) :
  (reachable reached -> tableListed reached)
  /\ currentSchema (selectSchema pool name s) = name
  /\ (exists later,
         issued (selectSchema pool name s)
         = issued s ++ tablesQuery name :: later)
  /\ (forall rows t ts,
         pool (tablesQuery name) = Opened rows ->
         scanNames rows (stream rows) = inr (t :: ts) ->
         currentTable (selectSchema pool name s) = t
         /\ map mainText (tableList (selectSchema pool name s)) = t :: ts)
  /\ ((forall rows t ts,
          pool (tablesQuery name) = Opened rows ->
          scanNames rows (stream rows) <> inr (t :: ts)) ->
      currentTable (selectSchema pool name s) = currentTable s).
Proof.
  split; [apply reachable_listed|].
  unfold selectSchema.
  pose proof (loadTables_selection pool name (with_currentSchema name s)) as H.
  split; [|split; [|split]].
  - exact (proj1 (loadTables_schema pool name (with_currentSchema name s))).
  - exact (loadTables_issued pool name (with_currentSchema name s)).
  - intros rows t ts Hpool Hscan. rewrite Hpool, Hscan in H.
    injection H as _ -> _ -> _. split; [reflexivity|].
    cbn [tableList with_currentTable with_tableList]. apply addItems_texts.
  - intros Hnone. destruct (pool (tablesQuery name)) as [err|rows].
    + now injection H as _ _ _ -> _.
    + destruct (scanNames rows (stream rows)) as [err|[|t ts]] eqn:Hscan.
      * now injection H as _ _ _ -> _.
      * now injection H as _ _ _ -> _.
      * exfalso. now apply (Hnone rows t ts).
Qed.

Lemma navigator_selection_witness :
  tableListed (selectSchema demo "public" (startup demo (initial 100)))
  /\ currentSchema (selectSchema demo "analytics" (initial 100))
     = "analytics"%string
  /\ currentTable (selectSchema demo "analytics" (initial 100))
     = "events"%string.
Proof.
  split; [|split].
  - apply (proj1 (navigator_selection demo "public" (initial 100)
                    (selectSchema demo "public" (startup demo (initial 100))))).
    apply (ReachStep (startup demo (initial 100))).
    + apply ReachStart.
    + apply (StepSelectSchema demo
               {| mainText := "public"; shortcut := "b"%char |}).
      right. left. reflexivity.
  - exact (proj1 (proj2 (navigator_selection demo "analytics" (initial 100)
                           (initial 100)))).
  - apply (proj1 (proj2 (proj2 (proj2
             (navigator_selection demo "analytics" (initial 100)
                (initial 100)))))
             (nameCursor "table_name" ["events"%string]) "events"%string []);
      reflexivity.
Defined.

(** C3, as stated, fails: after start-up the current table is events of
    schema analytics; selecting schema public, which has no table, makes
    public the current schema and empties the table list, and events is
    still the current table. *)
Lemma navigator_invariant_counterexample :
  let s1 := startup demo (initial 100) in
  let s2 := selectSchema demo "public" s1 in
  reachable s2
  /\ currentTable s1 = "events"%string
  /\ demo (tablesQuery "public") = Opened (nameCursor "table_name" [])
  /\ currentSchema s2 = "public"%string
  /\ tableList s2 = []
  /\ currentTable s2 = "events"%string
  /\ ~ (currentTable s2 = EmptyString
        \/ In (currentTable s2) (map mainText (tableList s2))).
Proof.
  intros s1 s2. repeat split; try reflexivity.
  - apply (ReachStep s1).
    + apply ReachStart.
    + apply (StepSelectSchema demo
               {| mainText := "public"; shortcut := "b"%char |}).
      right. left. reflexivity.
  - intros [H|H]; [discriminate H|destruct H].
Qed.

(** * Further properties of the code *)

(** ** The identifier quoter: no collisions, and reading back *)

Section QuoterFacts.
Import Regexp StringFacts RegexpFacts.

Lemma app_inj_last c (s t : string) :
  s +:+ String c EmptyString = t +:+ String c EmptyString -> s = t.
Proof.
  revert t. induction s as [|a s IH]; intros [|b t] E.
  - reflexivity.
  - rewrite app_empty_l, app_cons in E. injection E as _ E.
    destruct t; discriminate E.
  - rewrite app_empty_l, app_cons in E. injection E as _ E.
    destruct s; discriminate E.
  - rewrite !app_cons in E. injection E as -> E. f_equal. now apply IH.
Qed.

Lemma doubleQuotes_inj a b :
  GoStrings.doubleQuotes a = GoStrings.doubleQuotes b -> a = b.
Proof.
  revert b. induction a as [|c a IH]; intros [|d b] E; simpl in E.
  - reflexivity.
  - destruct (Ascii.eqb d GoStrings.dquote); discriminate E.
  - destruct (Ascii.eqb c GoStrings.dquote); discriminate E.
  - destruct (Ascii.eqb_spec c GoStrings.dquote) as [->|Hc],
             (Ascii.eqb_spec d GoStrings.dquote) as [->|Hd].
    + injection E as E. f_equal. now apply IH.
    + injection E as E _. congruence.
    + injection E as E _. congruence.
    + injection E as -> E. f_equal. now apply IH.
Qed.

Lemma identStart_not_quote c : identStart c = true -> c <> GoStrings.dquote.
Proof. intros H ->. discriminate H. Qed.

(** The two shapes of a result of [pgIdent]. *)
Lemma pgIdent_shape name :
  (pgIdent name = name
   /\ (name = EmptyString \/ plainIdentifier name))
  \/ (pgIdent name = quoted (GoStrings.doubleQuotes name)
      /\ name <> EmptyString).
Proof.
  destruct (String.eqb_spec name EmptyString) as [->|Hne].
  - left. split; [reflexivity|now left].
  - destruct (matchWhole identRe name) eqn:Hm.
    + apply matchWhole_matches in Hm. left. split.
      * now apply pgIdent_plain.
      * right. now apply identRe_matches.
    + right. split; [|exact Hne]. apply pgIdent_other; [|exact Hne].
      intros H. apply matchWhole_matches in H. congruence.
Qed.

Lemma quoted_not_plain body name :
  quoted body = name -> ~ (name = EmptyString \/ plainIdentifier name).
Proof.
  intros <- [H|(c & rest & E & Hc & _)].
  - discriminate H.
  - unfold quoted in E. injection E as <- _.
    now apply (identStart_not_quote GoStrings.dquote).
Qed.

Lemma readQuotedBody_doubled name rest :
  noQuoteAhead rest = true ->
  readQuotedBody
    (GoStrings.doubleQuotes name +:+ String GoStrings.dquote rest)
  = Some (name, rest).
Proof.
  intros Hrest. induction name as [|c name IH].
  - rewrite app_empty_l. cbn [GoStrings.doubleQuotes readQuotedBody].
    rewrite Ascii.eqb_refl. destruct rest as [|c2 rest]; [reflexivity|].
    cbn [noQuoteAhead] in Hrest. apply negb_true_iff in Hrest.
    now rewrite Hrest.
  - cbn [GoStrings.doubleQuotes].
    destruct (Ascii.eqb_spec c GoStrings.dquote) as [->|Hc].
    + rewrite !app_cons. cbn [readQuotedBody].
      rewrite Ascii.eqb_refl, IH. reflexivity.
    + rewrite app_cons. cbn [readQuotedBody].
      apply Ascii.eqb_neq in Hc. now rewrite Hc, IH.
Qed.

End QuoterFacts.

(** X1. Distinct identifiers get distinct SQL references. *)
Theorem pgIdent_injective (a b : string) :
  a <> b -> pgIdent a <> pgIdent b.
Proof.
  intros Hab E. apply Hab.
  destruct (pgIdent_shape a) as [[Ea Ha]|[Ea Ha]],
           (pgIdent_shape b) as [[Eb Hb]|[Eb Hb]].
  - congruence.
  - exfalso. rewrite Ea, Eb in E. symmetry in E.
    now apply (quoted_not_plain _ _ E).
  - exfalso. rewrite Ea, Eb in E. now apply (quoted_not_plain _ _ E).
  - rewrite Ea, Eb in E. unfold quoted in E. injection E as E.
    apply app_inj_last in E. now apply doubleQuotes_inj.
Qed.

Lemma pgIdent_injective_witness : pgIdent "orders" <> pgIdent "Orders".
Proof. apply (pgIdent_injective "orders" "Orders"). discriminate. Defined.

(** X2. A quoted result of [pgIdent] reads back as the identifier: read as
    SQL reads a quoted identifier, the reference followed by any text that
    does not start with a double quote yields the identifier and that
    text, so no double quote of the identifier ends the reference
    early. *)
Theorem pgIdent_read_back (name rest : string) :
  name <> EmptyString ->
  ~ Regexp.matches identRe name ->
  noQuoteAhead rest = true ->
  readQuoted (pgIdent name +:+ rest) = Some (name, rest).
Proof.
  intros Hne Hplain Hrest.
  rewrite (pgIdent_other name Hplain Hne). unfold quoted.
  rewrite StringFacts.app_cons, StringFacts.app_assoc, StringFacts.app_cons,
    StringFacts.app_empty_l.
  cbn [readQuoted]. rewrite Ascii.eqb_refl.
  now apply readQuotedBody_doubled.
Qed.

Lemma pgIdent_read_back_witness :
  readQuoted
    (pgIdent ("a" +:+ String GoStrings.dquote "; DROP TABLE t; --")
     +:+ ".users LIMIT 100")
  = Some ("a" +:+ String GoStrings.dquote "; DROP TABLE t; --",
          ".users LIMIT 100"%string).
Proof.
  apply (pgIdent_read_back
           ("a" +:+ String GoStrings.dquote "; DROP TABLE t; --")
           ".users LIMIT 100").
  - discriminate.
  - intros H. apply RegexpFacts.matchWhole_matches in H. discriminate H.
  - reflexivity.
Defined.

(** ** Trimming and the guard *)

Section TrimFacts.
Import StringFacts.

Lemma rev_app_acc (s t : string) :
  String.rev_app s t = String.rev_app s EmptyString +:+ t.
Proof.
  revert t. induction s as [|c s IH]; intros t; [reflexivity|].
  cbn [String.rev_app]. rewrite (IH (String c t)), (IH (String c EmptyString)).
  now rewrite app_assoc, app_cons, app_empty_l.
Qed.

Lemma rev_cons c (s : string) :
  String.rev (String c s) = String.rev s +:+ String c EmptyString.
Proof. unfold String.rev. cbn [String.rev_app]. apply rev_app_acc. Qed.

Lemma rev_app_distr (s t : string) :
  String.rev (s +:+ t) = String.rev t +:+ String.rev s.
Proof.
  induction s as [|c s IH].
  - now rewrite app_empty_l, app_empty_r.
  - now rewrite app_cons, !rev_cons, IH, app_assoc.
Qed.

Lemma rev_involutive (s : string) : String.rev (String.rev s) = s.
Proof.
  induction s as [|c s IH]; [reflexivity|].
  now rewrite rev_cons, rev_app_distr, IH.
Qed.

(** What [trimLeft] returns is the end of its argument. *)
Lemma trimLeft_suffix s : exists pre, s = pre +:+ GoStrings.trimLeft s.
Proof.
  assert (H : forall n s, String.length s <= n ->
                          exists pre, s = pre +:+ GoStrings.trimLeft s).
  { clear s. induction n as [|n IH]; intros s Hn.
    - destruct s; [now exists EmptyString|simpl in Hn; lia].
    - destruct s as [|c1 s1]; [now exists EmptyString|].
      simpl in Hn. cbn [GoStrings.trimLeft].
      destruct (GoStrings.asciiSpace c1).
      { destruct (IH s1 ltac:(lia)) as [pre E].
        exists (String c1 pre). now rewrite app_cons, <- E. }
      destruct s1 as [|c2 s2]; [now exists EmptyString|]. simpl in Hn.
      destruct (GoStrings.space2 c1 c2).
      { destruct (IH s2 ltac:(lia)) as [pre E].
        exists (String c1 (String c2 pre)). now rewrite !app_cons, <- E. }
      destruct s2 as [|c3 s3]; [now exists EmptyString|]. simpl in Hn.
      destruct (GoStrings.space3 c1 c2 c3); [|now exists EmptyString].
      destruct (IH s3 ltac:(lia)) as [pre E].
      exists (String c1 (String c2 (String c3 pre))).
      now rewrite !app_cons, <- E. }
  now apply (H (String.length s)).
Qed.

Lemma trimRev_suffix r : exists pre, r = pre +:+ GoStrings.trimRev r.
Proof.
  assert (H : forall n r, String.length r <= n ->
                          exists pre, r = pre +:+ GoStrings.trimRev r).
  { clear r. induction n as [|n IH]; intros r Hn.
    - destruct r; [now exists EmptyString|simpl in Hn; lia].
    - destruct r as [|c1 r1]; [now exists EmptyString|].
      simpl in Hn. cbn [GoStrings.trimRev].
      destruct (GoStrings.asciiSpace c1).
      { destruct (IH r1 ltac:(lia)) as [pre E].
        exists (String c1 pre). now rewrite app_cons, <- E. }
      destruct r1 as [|c2 r2]; [now exists EmptyString|]. simpl in Hn.
      destruct (GoStrings.space2 c2 c1).
      { destruct (IH r2 ltac:(lia)) as [pre E].
        exists (String c1 (String c2 pre)). now rewrite !app_cons, <- E. }
      destruct r2 as [|c3 r3]; [now exists EmptyString|]. simpl in Hn.
      destruct (GoStrings.space3 c3 c2 c1); [|now exists EmptyString].
      destruct (IH r3 ltac:(lia)) as [pre E].
      exists (String c1 (String c2 (String c3 pre))).
      now rewrite !app_cons, <- E. }
  now apply (H (String.length r)).
Qed.

(** What [trimRight] returns is the beginning of its argument. *)
Lemma trimRight_prefix s : exists post, s = GoStrings.trimRight s +:+ post.
Proof.
  unfold GoStrings.trimRight.
  destruct (trimRev_suffix (String.rev s)) as [pre E].
  exists (String.rev pre).
  rewrite <- rev_app_distr, <- E. now rewrite rev_involutive.
Qed.

(** The trimmed text is a piece of the text. *)
Lemma TrimSpace_within q :
  exists pre post, q = pre +:+ (GoStrings.TrimSpace q +:+ post).
Proof.
  unfold GoStrings.TrimSpace.
  destruct (trimLeft_suffix q) as [pre E1].
  destruct (trimRight_prefix (GoStrings.trimLeft q)) as [post E2].
  exists pre, post. now rewrite <- E2.
Qed.

(** The guard fires on a text as soon as it fires on a piece of it. *)
Lemma hasMultipleStatements_within pre q post :
  hasMultipleStatements q = true ->
  hasMultipleStatements (pre +:+ (q +:+ post)) = true.
Proof.
  unfold hasMultipleStatements. rewrite !RegexpFacts.found_matches.
  intros (a & m & b & -> & H). exists (pre +:+ a), m, (b +:+ post).
  split; [|exact H]. now rewrite !app_assoc.
Qed.

Lemma hasMultipleStatements_trimmed q :
  hasMultipleStatements (GoStrings.TrimSpace q) = true ->
  hasMultipleStatements q = true.
Proof.
  intros H. destruct (TrimSpace_within q) as (pre & post & E).
  rewrite E. now apply hasMultipleStatements_within.
Qed.

End TrimFacts.

(** X3. An input that the guard classifies as single-statement and that is
    not blank is never refused: [runAdhocQuery] runs its trimmed text, and
    sends exactly that text, unchanged, as the one query. *)
Theorem adhoc_single_runs (pool : Pool) (q : string) (s : AppState) :
  hasMultipleStatements q = false ->
  GoStrings.TrimSpace q <> EmptyString ->
  runAdhocQuery pool q s
  = runQueryInto pool (GoStrings.TrimSpace q) ResultTable s
  /\ issued (runAdhocQuery pool q s)
     = issued s ++ [textQuery (GoStrings.TrimSpace q)].
Proof.
  intros Hsingle Hne.
  assert (E : runAdhocQuery pool q s
              = runQueryInto pool (GoStrings.TrimSpace q) ResultTable s).
  { unfold runAdhocQuery. apply String.eqb_neq in Hne. rewrite Hne.
    destruct (hasMultipleStatements (GoStrings.TrimSpace q)) eqn:Hm;
      [|reflexivity].
    apply hasMultipleStatements_trimmed in Hm. congruence. }
  split; [exact E|]. rewrite E. apply runQueryInto_issued.
Qed.

Lemma adhoc_single_runs_witness :
  issued (runAdhocQuery demo "  SELECT 1;  " (initial 100))
  = [textQuery "SELECT 1;"].
Proof.
  apply (proj2 (adhoc_single_runs demo "  SELECT 1;  " (initial 100)
                  eq_refl ltac:(discriminate))).
Defined.

(** ** Notifications posted by an operation *)

Section Posting.

Lemma posts_same s s' :
  now s' = now s -> sleepers s' = sleepers s -> statusBar s' = statusBar s ->
  posts 0 s s'.
Proof.
  intros Hn Hs Hb. unfold posts. simpl. now rewrite app_nil_r.
Qed.

Lemma posts_refl s : posts 0 s s.
Proof. now apply posts_same. Qed.

Lemma posts_toast msg s : posts 1 s (toast msg s).
Proof. unfold posts. repeat split. lia. Qed.

Lemma posts_trans k1 k2 s1 s2 s3 :
  posts k1 s1 s2 -> posts k2 s2 s3 -> posts (k1 + k2) s1 s3.
Proof.
  intros (Hn1 & Hs1 & Hb1) (Hn2 & Hs2 & Hb2). unfold posts.
  split; [congruence|]. split.
  - rewrite Hs2, Hs1, Hn1, repeat_app. now rewrite <- app_assoc.
  - intros Hk. rewrite Hb2, Hb1 by lia. reflexivity.
Qed.

Lemma posts_setTable tbl t s : posts 0 s (setTable tbl t s).
Proof. destruct tbl; now apply posts_same. Qed.

Lemma runQueryRows_posts tbl rows rs row s :
  posts 1 s (runQueryRows tbl rows row rs s).
Proof.
  revert row s. induction rs as [|r rs IH]; intros row s; simpl.
  - destruct (Err rows); apply posts_toast.
  - destruct (Values r) as [err|vals]; [apply posts_toast|].
    eapply (posts_trans 0 1); [apply posts_setTable|apply IH].
Qed.

Lemma runQueryInto_posts pool q tbl s :
  posts 1 s (runQueryInto pool q tbl s).
Proof.
  unfold runQueryInto. destruct (pool (textQuery q)) as [err|rows].
  - apply (posts_trans 0 1 s (send (textQuery q) s)).
    + now apply posts_same.
    + apply posts_toast.
  - apply (posts_trans 0 1 s (send (textQuery q) s)).
    + now apply posts_same.
    + eapply (posts_trans 0 1); [apply posts_setTable|].
      apply runQueryRows_posts.
Qed.

Lemma runQueryRows_status tbl rows rs row s :
  exists msg,
    statusBar (runQueryRows tbl rows row rs s) = ("[yellow]" +:+ msg).
Proof.
  revert row s. induction rs as [|r rs IH]; intros row s; simpl.
  - destruct (Err rows); eexists; reflexivity.
  - destruct (Values r) as [err|vals]; [eexists; reflexivity|apply IH].
Qed.

Lemma runQueryRows_other tbl tbl' rows rs row s :
  tbl' <> tbl ->
  getTable tbl' (runQueryRows tbl rows row rs s) = getTable tbl' s.
Proof.
  intros Hne. revert row s. induction rs as [|r rs IH]; intros row s; simpl.
  - destruct (Err rows); apply getTable_toast.
  - destruct (Values r) as [err|vals]; [apply getTable_toast|].
    rewrite IH. now destruct tbl, tbl'.
Qed.

End Posting.

(** X4. Whatever the database answers, [runQueryInto] sends exactly its
    query, posts exactly one notification, leaves the selection alone and
    writes to no table but its target. *)
Theorem runQueryInto_reports (pool : Pool) (q : string) (tbl : TableRef)
    (s : AppState) :
  posts 1 s (runQueryInto pool q tbl s)
  /\ (exists msg,
         statusBar (runQueryInto pool q tbl s) = ("[yellow]" +:+ msg))
  /\ issued (runQueryInto pool q tbl s) = issued s ++ [textQuery q]
  /\ selection (runQueryInto pool q tbl s) = selection s
  /\ (forall tbl', tbl' <> tbl ->
        getTable tbl' (runQueryInto pool q tbl s) = getTable tbl' s).
Proof.
  split; [apply runQueryInto_posts|].
  split; [|split; [apply runQueryInto_issued|
                   split; [apply runQueryInto_selection|]]].
  - unfold runQueryInto. destruct (pool (textQuery q)) as [err|rows].
    + eexists; reflexivity.
    + apply runQueryRows_status.
  - intros tbl' Hne. unfold runQueryInto.
    destruct (pool (textQuery q)) as [err|rows].
    + now destruct tbl'.
    + rewrite runQueryRows_other by exact Hne. now destruct tbl, tbl'.
Qed.

(** ** The rendered table, cell by cell *)

Section Rendering.

Lemma setRowFrom_beyond (row i : nat) (cols : list string) (t : Table)
    (j : nat) :
  i + length cols <= j ->
  setRowFrom row i cols t !! (row, j) = t !! (row, j).
Proof.
  revert i t. induction cols as [|v cols IH]; intros i t Hj; simpl in *.
  - reflexivity.
  - rewrite IH by lia. apply lookup_insert_ne. intros [= E]. lia.
Qed.

Lemma setRowFrom_lookup (row i : nat) (cols : list string) (t : Table)
    (j : nat) :
  setRowFrom row i cols t !! (row, j)
  = if (j <? i)%nat then t !! (row, j)
    else match cols !! (j - i)%nat with
         | Some v => Some (dataCell (separator j +:+ v))
         | None => t !! (row, j)
         end.
Proof.
  destruct (Nat.ltb_spec j i) as [Hlt|Hge].
  - now apply setRowFrom_before.
  - destruct (cols !! (j - i)%nat) as [v|] eqn:Hv.
    + replace j with (i + (j - i))%nat at 1 2 by lia.
      now apply setRowFrom_written.
    + apply lookup_ge_None in Hv. apply setRowFrom_beyond. lia.
Qed.

Lemma setHeaderFrom_other_row (i : nat) (cols : list string) (t : Table)
    (r j : nat) :
  r <> 0 -> setHeaderFrom i cols t !! (r, j) = t !! (r, j).
Proof.
  intros Hr. revert i t. induction cols as [|h cols IH]; intros i t; simpl.
  - reflexivity.
  - rewrite IH. apply lookup_insert_ne. congruence.
Qed.

Lemma setHeaderFrom_lookup (i : nat) (cols : list string) (t : Table)
    (j : nat) :
  setHeaderFrom i cols t !! (0, j)
  = if (j <? i)%nat then t !! (0, j)
    else match cols !! (j - i)%nat with
         | Some h => Some (headerCell (headerText j h))
         | None => t !! (0, j)
         end.
Proof.
  revert i t. induction cols as [|h cols IH]; intros i t; simpl.
  - now destruct (j <? i)%nat.
  - rewrite IH.
    destruct (Nat.ltb_spec j (S i)) as [Hlt|Hge],
             (Nat.ltb_spec j i) as [Hlt'|Hge']; try lia.
    + apply lookup_insert_ne. intros [= E]. lia.
    + assert (j = i) as -> by lia. rewrite Nat.sub_diag. simpl.
      rewrite lookup_insert_eq. unfold headerText.
      now destruct (0 <? i)%nat.
    + replace (j - i)%nat with (S (j - S i)) by lia. simpl.
      destruct (cols !! (j - S i)%nat); [reflexivity|].
      apply lookup_insert_ne. intros [= E]. lia.
Qed.

Lemma fillFrom_lookup (cells : list (list string)) (row : nat) (t : Table)
    (r j : nat) :
  fillFrom row cells t !! ((row + r)%nat, j)
  = match cells !! r with
    | Some cs =>
        match cs !! j with
        | Some v => Some (dataCell (separator j +:+ v))
        | None => t !! ((row + r)%nat, j)
        end
    | None => t !! ((row + r)%nat, j)
    end.
Proof.
  revert row t r. induction cells as [|c cells IH]; intros row t r.
  - reflexivity.
  - cbn [fillFrom]. destruct r as [|r].
    + rewrite Nat.add_0_r. rewrite fillFrom_below by lia. simpl.
      unfold setRow. rewrite setRowFrom_lookup. simpl.
      now rewrite Nat.sub_0_r.
    + replace (row + S r)%nat with (S row + r)%nat by lia.
      rewrite IH. simpl.
      assert (E : setRow t row c !! ((S (row + r))%nat, j)
                  = t !! ((S (row + r))%nat, j)).
      { apply setRowFrom_other_row. lia. }
      now rewrite E.
Qed.

Lemma lookup_map_stringify (vals : list Value) (i : nat) :
  map stringify vals !! i = option_map stringify (vals !! i).
Proof.
  revert i. induction vals as [|v vals IH]; intros [|i]; simpl; auto.
Qed.

Lemma lookup_map_map_stringify (valss : list (list Value)) (r : nat) :
  map (map stringify) valss !! r = option_map (map stringify) (valss !! r).
Proof.
  revert r. induction valss as [|v valss IH]; intros [|r]; simpl; auto.
Qed.

End Rendering.

(** X5. The table that a query renders holds the header cells in row 0,
    the cells of the [r]-th delivered row in row [r + 1], each with its
    separator, and no other cell: nothing of an earlier result survives. *)
Theorem rendered_lookup (headers : list string) (valss : list (list Value))
    (r i : nat) :
  rendered headers valss !! (r, i)
  = match r with
    | 0 =>
        match headers !! i with
        | Some h => Some (headerCell (headerText i h))
        | None => None
        end
    | S r' =>
        match valss !! r' with
        | Some vals =>
            match vals !! i with
            | Some v => Some (dataCell (separator i +:+ stringify v))
            | None => None
            end
        | None => None
        end
    end.
Proof.
  unfold rendered. destruct r as [|r'].
  - rewrite fillFrom_below by lia. unfold setHeader.
    rewrite setHeaderFrom_lookup. simpl. rewrite Nat.sub_0_r.
    destruct (headers !! i); [reflexivity|apply lookup_empty].
  - change (S r') with (1 + r')%nat. rewrite fillFrom_lookup.
    assert (E : setHeader ∅ headers !! ((1 + r')%nat, i) = None).
    { unfold setHeader. rewrite setHeaderFrom_other_row by lia.
      apply lookup_empty. }
    rewrite lookup_map_map_stringify.
    destruct (valss !! r') as [vals|]; simpl; [|exact E].
    rewrite lookup_map_stringify. destruct (vals !! i); simpl; [reflexivity|exact E].
Qed.

(** X6. When every row decodes and the cursor ends without error,
    [runQueryInto] leaves in its target table the rendering of the headers
    and of all rows, in the order delivered, and reports the number of
    rows with the elapsed time. *)
Theorem runQueryInto_success (pool : Pool) (q : string) (tbl : TableRef)
    (s : AppState) (rows : Rows) (valss : list (list Value)) :
  pool (textQuery q) = Opened rows ->
  stream rows = map Decoded valss ->
  Err rows = None ->
  getTable tbl (runQueryInto pool q tbl s)
  = rendered (FieldDescriptions rows) valss
  /\ statusBar (runQueryInto pool q tbl s)
     = ("[yellow]" +:+ GoStrings.itoa (Z.of_nat (length valss))
        +:+ " rows in " +:+ elapsed rows).
Proof.
  intros Hpool Hstream Herr. unfold runQueryInto.
  rewrite Hpool, Hstream.
  rewrite <- (app_nil_r (map Decoded valss)), runQueryRows_decoded.
  simpl. rewrite Herr, getTable_toast, !getTable_setTable.
  split; [reflexivity|]. cbn [statusBar toast with_clock with_statusBar].
  now rewrite Nat.sub_0_r.
Qed.

Lemma runQueryInto_success_witness :
  resultTable
    (runQueryInto demo "SELECT id, name FROM analytics.events" ResultTable
       (initial 100))
  = rendered ["id"; "name"]%string [[VInt 1; VNil]; [VInt 2; VText ""]]
  /\ statusBar
       (runQueryInto demo "SELECT id, name FROM analytics.events" ResultTable
          (initial 100))
     = "[yellow]2 rows in 2ms"%string.
Proof.
  apply (runQueryInto_success demo "SELECT id, name FROM analytics.events"
           ResultTable (initial 100) twoRows
           [[VInt 1; VNil]; [VInt 2; VText ""]] eq_refl eq_refl eq_refl).
Defined.

(** ** Loading the columns *)

Section Columns.

Variable pool : Pool.

Lemma stringify_columnRow c :
  map stringify (columnRow c) = [fst (fst c); snd (fst c); snd c].
Proof. now destruct c as [[a b] d]. Qed.

Lemma Scan3_columnRow rows c : Scan3 rows (Decoded (columnRow c)) = inr c.
Proof. now destruct c as [[a b] d]. Qed.

(** The loop of [loadColumns] over rows of three texts. *)
Lemma loadColumnRows_scanned rows cols rest row s :
  loadColumnRows rows row (map Decoded (map columnRow cols) ++ rest) s
  = loadColumnRows rows (row + length cols) rest
      (with_columnTable
         (fillFrom row (map (map stringify) (map columnRow cols))
            (columnTable s)) s).
Proof.
  revert row s. induction cols as [|c cols IH]; intros row s.
  - simpl. rewrite Nat.add_0_r. now destruct s.
  - cbn [map app loadColumnRows length fillFrom].
    rewrite Scan3_columnRow. destruct c as [[name typ] nullable].
    rewrite IH. cbn [columnTable with_columnTable columnRow map stringify Sprint].
    f_equal. lia.
Qed.

Lemma loadColumnRows_result rows rs row s :
  resultTable (loadColumnRows rows row rs s) = resultTable s.
Proof.
  revert row s. induction rs as [|r rs IH]; intros row s; simpl.
  - reflexivity.
  - destruct (Scan3 rows r) as [err|[[name typ] nullable]]; [reflexivity|].
    now rewrite IH.
Qed.

Lemma loadColumnRows_posts rows rs row s :
  exists k, k <= 1 /\ posts k s (loadColumnRows rows row rs s).
Proof.
  revert row s. induction rs as [|r rs IH]; intros row s; simpl.
  - exists 0. split; [lia|apply posts_refl].
  - destruct (Scan3 rows r) as [err|[[name typ] nullable]].
    + exists 1. split; [lia|apply posts_toast].
    + destruct (IH (S row)
                  (with_columnTable
                     (setRow (columnTable s) row [name; typ; nullable]) s))
        as (k & Hk & Hp).
      exists k. split; [exact Hk|].
      apply (posts_trans 0 k s _ _ (posts_same _ _ eq_refl eq_refl eq_refl) Hp).
Qed.

Lemma loadColumns_posts schema table s :
  exists k, k <= 1 /\ posts k s (loadColumns pool schema table s).
Proof.
  unfold loadColumns. destruct (pool (columnsQuery schema table)) as [err|rows].
  - exists 1. split; [lia|].
    apply (posts_trans 0 1 s (send (columnsQuery schema table) s));
      [now apply posts_same|apply posts_toast].
  - destruct (loadColumnRows_posts rows (stream rows) 1
                (with_columnTable
                   (setHeader ∅ ["Column"; "Type"; "Nullable"]%string)
                   (send (columnsQuery schema table) s)))
      as (k & Hk & Hp).
    exists k. split; [exact Hk|].
    apply (posts_trans 0 k s _ _ (posts_same _ _ eq_refl eq_refl eq_refl) Hp).
Qed.

Lemma loadColumns_result schema table s :
  resultTable (loadColumns pool schema table s) = resultTable s.
Proof.
  unfold loadColumns. destruct (pool (columnsQuery schema table)).
  - reflexivity.
  - now rewrite loadColumnRows_result.
Qed.

End Columns.

(** X7. When every row of the answer holds three texts, [loadColumns]
    shows the header Column, Type, Nullable and the rows in the order
    delivered, and does so silently: no notification is posted. *)
Theorem loadColumns_success (pool : Pool) (schema table : string)
    (s : AppState) (rows : Rows) (cols : list (string * string * string)) :
  pool (columnsQuery schema table) = Opened rows ->
  stream rows = map Decoded (map columnRow cols) ->
  columnTable (loadColumns pool schema table s)
  = rendered ["Column"; "Type"; "Nullable"]%string (map columnRow cols)
  /\ posts 0 s (loadColumns pool schema table s).
Proof.
  intros Hpool Hstream. unfold loadColumns. rewrite Hpool, Hstream.
  rewrite <- (app_nil_r (map Decoded (map columnRow cols))).
  rewrite loadColumnRows_scanned. cbn [loadColumnRows]. split.
  - reflexivity.
  - now apply posts_same.
Qed.

Lemma loadColumns_success_witness :
  columnTable (loadColumns demo "analytics" "events" (initial 100))
  = rendered ["Column"; "Type"; "Nullable"]%string
      [[VText "id"; VText "integer"; VText "NO"];
       [VText "name"; VText "text"; VText "YES"]]
  /\ posts 0 (initial 100)
       (loadColumns demo "analytics" "events" (initial 100)).
Proof.
  apply (loadColumns_success demo "analytics" "events" (initial 100)
           {| FieldDescriptions :=
                ["column_name"; "data_type"; "is_nullable"]%string;
              stream := [Decoded [VText "id"; VText "integer"; VText "NO"];
                         Decoded [VText "name"; VText "text"; VText "YES"]];
              Err := None; elapsed := "1ms"; ScanErr := scanMismatch |}
           [("id", "integer", "NO"); ("name", "text", "YES")]%string
           eq_refl eq_refl).
Defined.

(** X8. [loadColumns] sends exactly the column query, posts at most one
    notification, and never touches the result table or the selection.
    When the pool refuses the query the column table keeps its content;
    when a row fails to scan the column table holds the header and the
    rows before it, and the status bar shows the error that [Scan]
    returned. *)
Theorem loadColumns_failure (pool : Pool) (schema table : string)
    (s : AppState) :
  issued (loadColumns pool schema table s)
  = issued s ++ [columnsQuery schema table]
  /\ resultTable (loadColumns pool schema table s) = resultTable s
  /\ selection (loadColumns pool schema table s) = selection s
  /\ (exists k, k <= 1 /\ posts k s (loadColumns pool schema table s))
  /\ (forall err,
         pool (columnsQuery schema table) = Refused err ->
         columnTable (loadColumns pool schema table s) = columnTable s
         /\ statusBar (loadColumns pool schema table s)
            = ("[yellow]load columns: " +:+ err))
  /\ (forall rows cols bad err after,
         pool (columnsQuery schema table) = Opened rows ->
         stream rows = map Decoded (map columnRow cols) ++ bad :: after ->
         Scan3 rows bad = inl err ->
         columnTable (loadColumns pool schema table s)
         = rendered ["Column"; "Type"; "Nullable"]%string (map columnRow cols)
         /\ statusBar (loadColumns pool schema table s)
            = ("[yellow]scan: " +:+ err)).
Proof.
  split; [apply loadColumns_issued|].
  split; [apply loadColumns_result|].
  split; [apply loadColumns_selection|].
  split; [apply loadColumns_posts|]. split.
  - intros err Hpool. unfold loadColumns. rewrite Hpool. now split.
  - intros rows cols bad err after Hpool Hstream Hbad.
    unfold loadColumns. rewrite Hpool, Hstream, loadColumnRows_scanned.
    cbn [loadColumnRows]. rewrite Hbad. now split.
Qed.

Lemma loadColumns_failure_witness :
  (columnTable (loadColumns offline "analytics" "events" (initial 100)) = ∅
   /\ statusBar (loadColumns offline "analytics" "events" (initial 100))
      = "[yellow]load columns: connection refused"%string)
  /\ (columnTable
        (loadColumns (fun _ => Opened nullColumn) "analytics" "events"
           (initial 100))
      = rendered ["Column"; "Type"; "Nullable"]%string
          [[VText "id"; VText "integer"; VText "NO"]]
      /\ statusBar
           (loadColumns (fun _ => Opened nullColumn) "analytics" "events"
              (initial 100))
         = "[yellow]scan: can't scan into dest[2] (col: is_nullable): cannot scan NULL into *string"%string).
Proof.
  split.
  - apply (proj1 (proj2 (proj2 (proj2 (proj2
             (loadColumns_failure offline "analytics" "events"
                (initial 100))))))
             "connection refused"%string eq_refl).
  - apply (proj2 (proj2 (proj2 (proj2 (proj2
             (loadColumns_failure (fun _ => Opened nullColumn) "analytics"
                "events" (initial 100))))))
             nullColumn [("id", "integer", "NO")]%string
             (Decoded [VText "name"; VText "text"; VNil])
             (ScanErr nullColumn [VText "name"; VText "text"; VNil]) []
             eq_refl eq_refl eq_refl).
Defined.

(** ** Loading the tables *)

Section Tables.

Variable pool : Pool.

Lemma selection_limit s s' :
  selection s' = selection s -> previewLimit s' = previewLimit s.
Proof. now intros [= _ _ _ _ H]. Qed.

Lemma loadTables_posts schema s :
  exists k, k <= 2 /\ posts k s (loadTables pool schema s).
Proof.
  unfold loadTables. destruct (pool (tablesQuery schema)) as [err|rows].
  - exists 1. split; [lia|].
    eapply (posts_trans 0 1); [|apply posts_toast]. now apply posts_same.
  - destruct (scanNames rows (stream rows)) as [err|[|t ts]].
    + exists 1. split; [lia|].
      eapply (posts_trans 0 1); [|apply posts_toast]. now apply posts_same.
    + exists 0. split; [lia|]. now apply posts_same.
    + match goal with
      | |- context [loadColumns pool schema t ?s0] =>
          destruct (loadColumns_posts pool schema t s0) as (k & Hk & Hp);
          pose proof (runQueryInto_posts pool
                        (previewSQL schema t
                           (previewLimit (loadColumns pool schema t s0)))
                        ResultTable (loadColumns pool schema t s0)) as Hq
      end.
      exists (k + 1). split; [lia|].
      unfold previewTable.
      eapply (posts_trans (0 + k) 1); [|exact Hq].
      eapply (posts_trans 0 k); [|exact Hp]. now apply posts_same.
Qed.

End Tables.

(** X9. When the answer delivers at least one table, [loadTables] lists
    the tables in the order delivered, makes the first the current table,
    and sends three queries in this order: the table query, the column
    query and the preview of the first table, all for the schema it was
    called with; the current schema is not assigned. *)
Theorem loadTables_first_table (pool : Pool) (schema : string) (s : AppState)
    (rows : Rows) (t : string) (ts : list string) :
  pool (tablesQuery schema) = Opened rows ->
  scanNames rows (stream rows) = inr (t :: ts) ->
  map mainText (tableList (loadTables pool schema s)) = t :: ts
  /\ currentTable (loadTables pool schema s) = t
  /\ currentSchema (loadTables pool schema s) = currentSchema s
  /\ issued (loadTables pool schema s)
     = issued s ++
       [tablesQuery schema; columnsQuery schema t;
        textQuery (previewSQL schema t (previewLimit s))].
Proof.
  intros Hpool Hscan.
  pose proof (loadTables_selection pool schema s) as Hsel.
  rewrite Hpool, Hscan in Hsel.
  injection Hsel as _ Hlist Hschema Htable _.
  split; [|split; [exact Htable|split; [exact Hschema|]]].
  - rewrite Hlist. cbn [tableList with_currentTable with_tableList].
    apply addItems_texts.
  - unfold loadTables. rewrite Hpool, Hscan. unfold previewTable.
    rewrite runQueryInto_issued, loadColumns_issued.
    rewrite (selection_limit _ _ (loadColumns_selection pool schema t _)).
    cbn [issued previewLimit with_currentTable with_tableList send with_issued].
    now rewrite <- !app_assoc.
Qed.

Lemma loadTables_first_table_witness :
  map mainText (tableList (loadTables demo "analytics" (initial 100)))
  = ["events"%string]
  /\ issued (loadTables demo "analytics" (initial 100))
     = [tablesQuery "analytics"; columnsQuery "analytics" "events";
        textQuery "SELECT * FROM analytics.events LIMIT 100"].
Proof.
  destruct (loadTables_first_table demo "analytics" (initial 100)
              (nameCursor "table_name" ["events"%string]) "events" []
              eq_refl eq_refl) as (Hlist & _ & _ & Hissued).
  split; [exact Hlist|exact Hissued].
Defined.

(** X10. When the answer delivers no table, [loadTables] empties the
    table list and both tables, sends nothing but the table query, posts
    no notification and leaves the current schema and table as they
    were. *)
Theorem loadTables_no_table (pool : Pool) (schema : string) (s : AppState)
    (rows : Rows) :
  pool (tablesQuery schema) = Opened rows ->
  scanNames rows (stream rows) = inr [] ->
  tableList (loadTables pool schema s) = []
  /\ display (loadTables pool schema s) = (∅, ∅)
  /\ issued (loadTables pool schema s) = issued s ++ [tablesQuery schema]
  /\ posts 0 s (loadTables pool schema s)
  /\ currentSchema (loadTables pool schema s) = currentSchema s
  /\ currentTable (loadTables pool schema s) = currentTable s.
Proof.
  intros Hpool Hscan. unfold loadTables. rewrite Hpool, Hscan.
  repeat split. now rewrite app_nil_r.
Qed.

Lemma loadTables_no_table_witness :
  tableList (loadTables demo "public" (startup demo (initial 100))) = []
  /\ display (loadTables demo "public" (startup demo (initial 100))) = (∅, ∅).
Proof.
  destruct (loadTables_no_table demo "public" (startup demo (initial 100))
              (nameCursor "table_name" []) eq_refl eq_refl)
    as (Hlist & Hdisplay & _).
  split; [exact Hlist|exact Hdisplay].
Defined.

(** X11. When the pool refuses the table query, [loadTables] posts the
    error and changes nothing else: the table list still shows the tables
    loaded before.  When a row fails to scan, the table list is left
    empty, the error that [Scan] returned is posted, and the two tables
    and the current table are unchanged.  In both cases only the table
    query is sent. *)
Theorem loadTables_failure (pool : Pool) (schema : string) (s : AppState) :
  (forall err,
      pool (tablesQuery schema) = Refused err ->
      selection (loadTables pool schema s) = selection s
      /\ display (loadTables pool schema s) = display s
      /\ statusBar (loadTables pool schema s)
         = ("[yellow]load tables: " +:+ err)
      /\ issued (loadTables pool schema s) = issued s ++ [tablesQuery schema])
  /\ (forall rows err,
         pool (tablesQuery schema) = Opened rows ->
         scanNames rows (stream rows) = inl err ->
         tableList (loadTables pool schema s) = []
         /\ currentTable (loadTables pool schema s) = currentTable s
         /\ display (loadTables pool schema s) = display s
         /\ statusBar (loadTables pool schema s) = ("[yellow]scan: " +:+ err)
         /\ issued (loadTables pool schema s)
            = issued s ++ [tablesQuery schema]).
Proof.
  split.
  - intros err Hpool. unfold loadTables. rewrite Hpool. now repeat split.
  - intros rows err Hpool Hscan. unfold loadTables. rewrite Hpool, Hscan.
    now repeat split.
Qed.

Lemma loadTables_failure_witness :
  (selection (loadTables offline "public" (startup demo (initial 100)))
   = selection (startup demo (initial 100))
   /\ statusBar (loadTables offline "public" (startup demo (initial 100)))
      = "[yellow]load tables: connection refused"%string)
  /\ (tableList
        (loadTables (fun _ => Opened nullName) "public"
           (startup demo (initial 100))) = []
      /\ statusBar
           (loadTables (fun _ => Opened nullName) "public"
              (startup demo (initial 100)))
         = "[yellow]scan: can't scan into dest[0] (col: name): cannot scan NULL into *string"%string).
Proof.
  split.
  - destruct (proj1 (loadTables_failure offline "public"
                       (startup demo (initial 100)))
                "connection refused"%string eq_refl)
      as (Hsel & _ & Hstatus & _).
    split; [exact Hsel|exact Hstatus].
  - destruct (proj2 (loadTables_failure (fun _ => Opened nullName) "public"
                       (startup demo (initial 100)))
                nullName (ScanErr nullName [VNil]) eq_refl eq_refl)
      as (Hlist & _ & _ & Hstatus & _).
    split; [exact Hlist|exact Hstatus].
Defined.

(** X12. [selectTable] makes the name the current table, keeps the
    current schema and both lists, and sends exactly the column query and
    the preview for that table of the current schema, in this order. *)
Theorem selectTable_queries (pool : Pool) (name : string) (s : AppState) :
  currentTable (selectTable pool name s) = name
  /\ currentSchema (selectTable pool name s) = currentSchema s
  /\ schemaList (selectTable pool name s) = schemaList s
  /\ tableList (selectTable pool name s) = tableList s
  /\ issued (selectTable pool name s)
     = issued s ++
       [columnsQuery (currentSchema s) name;
        textQuery (previewSQL (currentSchema s) name (previewLimit s))].
Proof.
  unfold selectTable. cbv zeta.
  cbn [currentSchema currentTable with_currentTable].
  pose proof (loadColumns_selection pool (currentSchema s) name
                (with_currentTable name s)) as Hcol.
  set (s2 := loadColumns pool (currentSchema s) name
               (with_currentTable name s)) in *.
  pose proof (previewTable_selection pool (currentSchema s2)
                (currentTable s2) s2) as Hprev.
  unfold selection in Hcol, Hprev.
  cbn [schemaList tableList currentSchema currentTable previewLimit
         with_currentTable] in Hcol.
  injection Hcol as Hl1 Hl2 Hs Ht Hlim.
  injection Hprev as Hl1' Hl2' Hs' Ht' _.
  split; [congruence|]. split; [congruence|].
  split; [congruence|]. split; [congruence|].
  unfold previewTable. rewrite runQueryInto_issued. subst s2.
  rewrite loadColumns_issued, Hs, Ht, Hlim.
  cbn [issued with_currentTable]. now rewrite <- app_assoc.
Qed.

(** ** Loading the schemas *)

Section Schemas.

Variable pool : Pool.

Lemma loadSchemas_list rows names s :
  pool schemataQuery = Opened rows ->
  stream rows = nameRows names ->
  schemaList (fst (loadSchemas pool s)) = addItems (sortStrings names) []
  /\ currentSchema (fst (loadSchemas pool s))
     = match sortStrings names with
       | sc :: _ => sc
       | [] => currentSchema s
       end.
Proof.
  intros Hpool Hstream. unfold loadSchemas.
  rewrite Hpool, Hstream, scanNames_nameRows.
  destruct (sortStrings names) as [|sc scs]; cbn [fst]; [now split|].
  match goal with
  | |- context [loadTables pool ?x ?s0] =>
      destruct (loadTables_schema pool x s0) as [-> ->]
  end.
  now split.
Qed.

End Schemas.

(** X13. The schema list and the current schema after [loadSchemas] do
    not depend on the order in which the database delivers the names. *)
Theorem loadSchemas_order (pool1 pool2 : Pool) (rows1 rows2 : Rows)
    (names1 names2 : list string) (s : AppState) :
  pool1 schemataQuery = Opened rows1 -> stream rows1 = nameRows names1 ->
  pool2 schemataQuery = Opened rows2 -> stream rows2 = nameRows names2 ->
  Permutation names1 names2 ->
  schemaList (fst (loadSchemas pool1 s)) = schemaList (fst (loadSchemas pool2 s))
  /\ currentSchema (fst (loadSchemas pool1 s))
     = currentSchema (fst (loadSchemas pool2 s)).
Proof.
  intros Hp1 Hs1 Hp2 Hs2 Hperm.
  destruct (loadSchemas_list pool1 rows1 names1 s Hp1 Hs1) as [-> ->].
  destruct (loadSchemas_list pool2 rows2 names2 s Hp2 Hs2) as [-> ->].
  assert (E : sortStrings names1 = sortStrings names2).
  { apply sorted_unique; try apply sortStrings_sorted.
    now rewrite !sortStrings_perm. }
  now rewrite E.
Qed.

Lemma loadSchemas_order_witness :
  schemaList (fst (loadSchemas demo (initial 100)))
  = schemaList
      (fst (loadSchemas
              (fun _ => Opened (nameCursor "schema_name"
                                  ["analytics"; "public"]%string))
              (initial 100))).
Proof.
  apply (proj1 (loadSchemas_order demo
                  (fun _ => Opened (nameCursor "schema_name"
                                      ["analytics"; "public"]%string))
                  (nameCursor "schema_name" ["public"; "analytics"]%string)
                  (nameCursor "schema_name" ["analytics"; "public"]%string)
                  ["public"; "analytics"]%string
                  ["analytics"; "public"]%string (initial 100)
                  eq_refl eq_refl eq_refl eq_refl (perm_swap _ _ _))).
Defined.

(** X14. When [loadSchemas] gets no schema list it returns the error and
    posts nothing itself.  After a refused query the selection and the
    tables are as before; after a row that fails to scan the error is the
    one that [Scan] returned, the schema list is empty and everything else
    is as before.  [refresh] drops the returned error: the status bar then
    reports a refresh. *)
Theorem loadSchemas_failure (pool : Pool) (s : AppState) :
  (forall err,
      pool schemataQuery = Refused err ->
      snd (loadSchemas pool s) = Some err
      /\ selection (fst (loadSchemas pool s)) = selection s
      /\ display (fst (loadSchemas pool s)) = display s
      /\ posts 0 s (fst (loadSchemas pool s))
      /\ issued (fst (loadSchemas pool s)) = issued s ++ [schemataQuery]
      /\ statusBar (refresh pool s)
         = "[yellow]Refreshed schemas and tables."%string)
  /\ (forall rows err,
         pool schemataQuery = Opened rows ->
         scanNames rows (stream rows) = inl err ->
         snd (loadSchemas pool s) = Some err
         /\ schemaList (fst (loadSchemas pool s)) = []
         /\ tableList (fst (loadSchemas pool s)) = tableList s
         /\ currentSchema (fst (loadSchemas pool s)) = currentSchema s
         /\ currentTable (fst (loadSchemas pool s)) = currentTable s
         /\ display (fst (loadSchemas pool s)) = display s
         /\ posts 0 s (fst (loadSchemas pool s))
         /\ issued (fst (loadSchemas pool s)) = issued s ++ [schemataQuery]
         /\ statusBar (refresh pool s)
            = "[yellow]Refreshed schemas and tables."%string).
Proof.
  split.
  - intros err Hpool. unfold refresh, loadSchemas. rewrite Hpool.
    cbn [fst snd]. repeat split. now rewrite app_nil_r.
  - intros rows err Hpool Hscan. unfold refresh, loadSchemas.
    rewrite Hpool, Hscan. cbn [fst snd]. repeat split. now rewrite app_nil_r.
Qed.

Lemma loadSchemas_failure_witness :
  (snd (loadSchemas offline (startup demo (initial 100)))
   = Some "connection refused"%string
   /\ selection (fst (loadSchemas offline (startup demo (initial 100))))
      = selection (startup demo (initial 100)))
  /\ (snd (loadSchemas (fun _ => Opened nullName)
             (startup demo (initial 100)))
      = Some "can't scan into dest[0] (col: name): cannot scan NULL into *string"%string
      /\ schemaList
           (fst (loadSchemas (fun _ => Opened nullName)
                   (startup demo (initial 100)))) = []).
Proof.
  split.
  - destruct (proj1 (loadSchemas_failure offline
                       (startup demo (initial 100)))
                "connection refused"%string eq_refl)
      as (Herr & Hsel & _).
    split; [exact Herr|exact Hsel].
  - destruct (proj2 (loadSchemas_failure (fun _ => Opened nullName)
                       (startup demo (initial 100)))
                nullName (ScanErr nullName [VNil]) eq_refl eq_refl)
      as (Herr & Hlist & _).
    split; [exact Herr|exact Hlist].
Defined.

(** ** Items and their shortcuts *)

Section Items.

Lemma addItemsFrom_app i xs l :
  addItemsFrom i xs l = l ++ addItemsFrom i xs [].
Proof.
  revert i l. induction xs as [|x xs IH]; intros i l; simpl.
  - now rewrite app_nil_r.
  - rewrite (IH (S i) (l ++ _)), (IH (S i) [_]). now rewrite <- app_assoc.
Qed.

Lemma addItemsFrom_lookup (xs : list string) (i k : nat) (x : string) :
  xs !! k = Some x ->
  addItemsFrom i xs [] !! k
  = Some {| mainText := x; shortcut := shortcutOf (i + k) |}.
Proof.
  revert i k. induction xs as [|y xs IH]; intros i k Hk; [discriminate|].
  cbn [addItemsFrom]. rewrite addItemsFrom_app.
  destruct k as [|k]; simpl in *.
  - injection Hk as ->. now rewrite Nat.add_0_r.
  - replace (i + S k)%nat with (S i + k)%nat by lia. now apply IH.
Qed.

Lemma shortcutOf_code i : nat_of_ascii (shortcutOf i) = 97 + i mod 26.
Proof.
  unfold shortcutOf. apply nat_ascii_embedding.
  pose proof (Nat.mod_upper_bound i 26). lia.
Qed.

End Items.

(** X15. The item at position [i] of a list filled by [loadSchemas] or
    [loadTables] carries the name at position [i] and the shortcut
    ['a' + i % 26]: a lowercase letter, the same for positions 26
    apart. *)
Theorem item_shortcuts (xs : list string) (i : nat) (x : string) :
  xs !! i = Some x ->
  addItems xs [] !! i = Some {| mainText := x; shortcut := shortcutOf i |}
  /\ nat_of_ascii "a" <= nat_of_ascii (shortcutOf i) <= nat_of_ascii "z"
  /\ shortcutOf (i + 26) = shortcutOf i.
Proof.
  intros Hx. split; [|split].
  - unfold addItems. now rewrite (addItemsFrom_lookup xs 0 i x Hx).
  - rewrite shortcutOf_code. pose proof (Nat.mod_upper_bound i 26).
    change (nat_of_ascii "a") with 97. change (nat_of_ascii "z") with 122.
    lia.
  - unfold shortcutOf. f_equal. f_equal.
    rewrite <- (Nat.mul_1_l 26) at 1. now rewrite Nat.Div0.mod_add.
Qed.

Lemma item_shortcuts_witness :
  addItems ["analytics"; "public"]%string [] !! 1
  = Some {| mainText := "public"; shortcut := "b" |}.
Proof.
  apply (proj1 (item_shortcuts ["analytics"; "public"]%string 1 "public"
                  eq_refl)).
Defined.

(** ** The life of a notification *)

(** X16. A notification posted while no revert is pending stays on the
    status bar for every delay below three seconds and has given way to
    the idle text, with nothing left pending, from three seconds on. *)
Theorem toast_lifetime (s : AppState) (msg : string) (d : nat) :
  sleepers s = [] ->
  (d < revertDelay ->
   statusBar (elapse d (toast msg s)) = ("[yellow]" +:+ msg))
  /\ (revertDelay <= d ->
      statusBar (elapse d (toast msg s)) = idleStatus
      /\ sleepers (elapse d (toast msg s)) = []).
Proof.
  intros Hs. split.
  - intros Hd. rewrite elapse_early; [reflexivity|].
    cbn [toast sleepers now with_clock with_statusBar]. rewrite Hs.
    intros w [<-|[]]. lia.
  - intros Hd. split.
    + apply (elapse_due d _ (now s + revertDelay)).
      * cbn [toast sleepers with_clock]. rewrite Hs. now left.
      * cbn [toast now with_clock with_statusBar]. lia.
    + rewrite sleepers_elapse.
      cbn [toast sleepers now with_clock with_statusBar]. rewrite Hs.
      cbn [app List.filter].
      destruct (Nat.leb_spec (now s + revertDelay) (now s + d)); [reflexivity|lia].
Qed.

Lemma toast_lifetime_witness :
  statusBar (elapse 2999 (toast "done" (initial 100))) = "[yellow]done"%string
  /\ statusBar (elapse 3000 (toast "done" (initial 100))) = idleStatus.
Proof.
  split.
  - apply (proj1 (toast_lifetime (initial 100) "done" 2999 eq_refl)).
    unfold revertDelay. lia.
  - apply (proj2 (toast_lifetime (initial 100) "done" 3000 eq_refl)).
    unfold revertDelay. lia.
Defined.

(** ** The status bar always comes back to the idle text *)

Section Timely.

Lemma posts_any_trans s1 s2 s3 :
  (exists k, posts k s1 s2) -> (exists k, posts k s2 s3) ->
  exists k, posts k s1 s3.
Proof.
  intros [k1 H1] [k2 H2]. exists (k1 + k2). now apply (posts_trans k1 k2 s1 s2).
Qed.

Lemma loadSchemas_posts pool s :
  exists k, posts k s (fst (loadSchemas pool s)).
Proof.
  unfold loadSchemas. destruct (pool schemataQuery) as [err|rows].
  - exists 0. now apply posts_same.
  - destruct (scanNames rows (stream rows)) as [err|schemas].
    + exists 0. now apply posts_same.
    + cbn [fst]. destruct (sortStrings schemas) as [|sc scs].
      * exists 0. now apply posts_same.
      * match goal with
        | |- context [loadTables pool ?x ?s0] =>
            destruct (loadTables_posts pool x s0) as (k & _ & Hp)
        end.
        exists k. eapply (posts_trans 0 k); [|exact Hp]. now apply posts_same.
Qed.

Lemma runAdhocQuery_posts pool q s :
  exists k, posts k s (runAdhocQuery pool q s).
Proof.
  unfold runAdhocQuery.
  destruct (String.eqb (GoStrings.TrimSpace q) EmptyString).
  - exists 0. apply posts_refl.
  - destruct (hasMultipleStatements (GoStrings.TrimSpace q)).
    + exists 1. apply posts_toast.
    + exists 1. apply runQueryInto_posts.
Qed.

Lemma selectTable_posts pool name s :
  exists k, posts k s (selectTable pool name s).
Proof.
  unfold selectTable. cbv zeta.
  eapply posts_any_trans; [|exists 1; apply runQueryInto_posts].
  eapply posts_any_trans.
  - exists 0. apply (posts_same s (with_currentTable name s)); reflexivity.
  - destruct (loadColumns_posts pool
                (currentSchema (with_currentTable name s))
                (currentTable (with_currentTable name s))
                (with_currentTable name s)) as (k & _ & Hp).
    now exists k.
Qed.

Lemma step_posts_or_elapse s s' :
  step s s' -> (exists k, posts k s s') \/ (exists d, s' = elapse d s).
Proof.
  intros [pool item s0 _|pool item s0 _|pool s0|pool q s0|d s0].
  - left. unfold selectSchema.
    eapply posts_any_trans.
    + exists 0.
      apply (posts_same s0 (with_currentSchema (mainText item) s0));
        reflexivity.
    + destruct (loadTables_posts pool (mainText item)
                  (with_currentSchema (mainText item) s0)) as (k & _ & Hp).
      now exists k.
  - left. apply selectTable_posts.
  - left. unfold refresh.
    eapply posts_any_trans; [apply loadSchemas_posts|].
    exists 1. apply posts_toast.
  - left. apply runAdhocQuery_posts.
  - right. now exists d.
Qed.

Lemma timely_posts k s s' : timely s -> posts k s s' -> timely s'.
Proof.
  intros [Hdue Hidle] (Hn & Hs & Hb). split.
  - intros w Hw. rewrite Hs, Hn in *. apply in_app_or in Hw as [Hw|Hw].
    + now apply Hdue.
    + apply repeat_spec in Hw. subst w. unfold revertDelay. lia.
  - intros Hnil. rewrite Hs in Hnil. apply app_eq_nil in Hnil as [H1 H2].
    destruct k; [|discriminate H2]. rewrite Hb by reflexivity. now apply Hidle.
Qed.

Lemma timely_elapse d s : timely s -> timely (elapse d s).
Proof.
  intros [Hdue Hidle]. split.
  - intros w Hw. rewrite sleepers_elapse in Hw. rewrite now_elapse.
    apply List.filter_In in Hw as [Hw Hlate].
    apply negb_true_iff, Nat.leb_gt in Hlate.
    specialize (Hdue w Hw). lia.
  - intros Hnil.
    destruct (List.filter (fun w => w <=? now s + d) (sleepers s))
      as [|w0 l] eqn:Hwoken.
    + assert (Hs : sleepers s = []).
      { rewrite sleepers_elapse in Hnil.
        destruct (sleepers s) as [|w l]; [reflexivity|]. exfalso.
        simpl in Hwoken, Hnil.
        destruct (w <=? now s + d); simpl in *; discriminate. }
      rewrite elapse_early; [now apply Hidle|].
      rewrite Hs. intros w [].
    + apply (elapse_due d s w0).
      * assert (Hin : In w0 (List.filter (fun w => w <=? now s + d)
                               (sleepers s))) by (rewrite Hwoken; now left).
        now apply List.filter_In in Hin.
      * assert (Hin : In w0 (List.filter (fun w => w <=? now s + d)
                               (sleepers s))) by (rewrite Hwoken; now left).
        apply List.filter_In in Hin as [_ Hle]. now apply Nat.leb_le.
Qed.

Lemma timely_startup pool limit : timely (startup pool (initial limit)).
Proof.
  destruct (loadSchemas_posts pool (initial limit)) as (k & Hn & Hs & _).
  unfold startup.
  destruct (loadSchemas pool (initial limit)) as [s1 [e|]]; cbn [fst] in *.
  - split; [|reflexivity].
    intros w Hw. cbn [updateStatus toast sleepers now with_clock with_statusBar]
      in *.
    rewrite Hs, Hn in *. cbn [initial sleepers now] in *.
    apply in_app_or in Hw as [Hw|[<-|[]]].
    + apply repeat_spec in Hw. subst w. unfold revertDelay. lia.
    + unfold revertDelay. lia.
  - split; [|reflexivity].
    intros w Hw. cbn [updateStatus sleepers now with_statusBar] in *.
    rewrite Hs, Hn in *. cbn [initial sleepers now] in *.
    apply repeat_spec in Hw. subst w. unfold revertDelay. lia.
Qed.

Lemma reachable_timely s : reachable s -> timely s.
Proof.
  induction 1 as [pool limit|s s' _ IH Hstep].
  - apply timely_startup.
  - destruct (step_posts_or_elapse s s' Hstep) as [[k Hp]|[d ->]].
    + now apply (timely_posts k s).
    + now apply timely_elapse.
Qed.

End Timely.

(** X17. In every reachable state each pending revert is due within three
    seconds, and with none pending the status bar shows the idle text; so
    three seconds without an event always bring the idle text back, with
    no revert left pending. *)
Theorem status_returns_to_idle (s : AppState) :
  reachable s ->
  timely s
  /\ statusBar (elapse revertDelay s) = idleStatus
  /\ sleepers (elapse revertDelay s) = [].
Proof.
  intros Hr. pose proof (reachable_timely s Hr) as [Hdue Hidle].
  split; [now split|]. split.
  - destruct (sleepers s) as [|w l] eqn:Hs.
    + rewrite elapse_early; [now apply Hidle|]. rewrite Hs. intros w [].
    + apply (elapse_due revertDelay s w).
      * rewrite Hs. now left.
      * apply Hdue. now left.
  - rewrite sleepers_elapse.
    assert (H : forall l, (forall w, In w l -> w <= now s + revertDelay) ->
                List.filter (fun w => negb (w <=? now s + revertDelay)) l = []).
    { induction l as [|w l IH]; intros Hl; [reflexivity|]. simpl.
      destruct (Nat.leb_spec w (now s + revertDelay)) as [_|Hgt].
      - apply IH. intros w' Hw'. apply Hl. now right.
      - specialize (Hl w (or_introl eq_refl)). lia. }
    apply H. intros w Hw. now apply Hdue.
Qed.

Lemma status_returns_to_idle_witness :
  statusBar
    (elapse revertDelay
       (runAdhocQuery demo "SELECT 1; SELECT 2" (startup demo (initial 100))))
  = idleStatus.
Proof.
  apply (status_returns_to_idle
           (runAdhocQuery demo "SELECT 1; SELECT 2"
              (startup demo (initial 100)))).
  apply (ReachStep (startup demo (initial 100))).
  - apply ReachStart.
  - apply StepRunQuery.
Defined.

(** ** Focus and keys *)



(** X19. The input capture of the application consumes a key exactly when
    the key is F5 or Tab, or the focus is outside the query area and the
    rune is q, Q, r or R.  Every other key is passed on unchanged and
    changes nothing; in particular the letters q and r typed into the
    query area neither quit nor refresh. *)
Theorem key_passed_on (pool : Pool) (ev : EventKey) (ui : Screen) :
  let bound :=
    (focus ui <> PQueryArea
     /\ (Rune ev = rune_q \/ Rune ev = rune_Q
         \/ Rune ev = rune_r \/ Rune ev = rune_R))
    \/ Key ev = KeyF5 \/ Key ev = KeyTab in
  (bound -> snd (appInputCapture pool ev ui) = None)
  /\ (~ bound -> appInputCapture pool ev ui = (ui, Some ev))
  /\ (focus ui = PQueryArea -> Key ev = KeyRune ->
      appInputCapture pool ev ui = (ui, Some ev)
      /\ queryAreaInputCapture pool ev ui = (ui, Some ev)).
Proof.
  intros bound. unfold appInputCapture.
  assert (Hfocus : isQueryArea (focus ui) = false <-> focus ui <> PQueryArea).
  { destruct (focus ui); simpl; split; congruence. }
  split; [|split].
  - intros [[Hf Hr]|Hk].
    + apply Hfocus in Hf. rewrite Hf. cbn [negb andb].
      destruct Hr as [-> | [-> | [-> | ->]]]; reflexivity.
    + destruct (negb (isQueryArea (focus ui))
                && ((Rune ev =? rune_q)%Z || (Rune ev =? rune_Q)%Z));
        [reflexivity|].
      destruct (negb (isQueryArea (focus ui))
                && ((Rune ev =? rune_r)%Z || (Rune ev =? rune_R)%Z));
        [reflexivity|].
      destruct Hk as [-> | ->]; reflexivity.
  - intros Hnot.
    destruct (isQueryArea (focus ui)) eqn:Hf; cbn [negb andb].
    + destruct (Key ev) eqn:Hk; try reflexivity;
        exfalso; apply Hnot; right; auto.
    + destruct (Z.eqb_spec (Rune ev) rune_q) as [Hq|_].
      { exfalso. apply Hnot. left. split; [now apply Hfocus|auto]. }
      destruct (Z.eqb_spec (Rune ev) rune_Q) as [Hq|_].
      { exfalso. apply Hnot. left. split; [now apply Hfocus|auto]. }
      destruct (Z.eqb_spec (Rune ev) rune_r) as [Hq|_].
      { exfalso. apply Hnot. left. split; [now apply Hfocus|auto]. }
      destruct (Z.eqb_spec (Rune ev) rune_R) as [Hq|_].
      { exfalso. apply Hnot. left. split; [now apply Hfocus|auto 6]. }
      cbn [orb].
      destruct (Key ev) eqn:Hk; try reflexivity;
        exfalso; apply Hnot; right; auto.
  - intros Hf Hk. unfold queryAreaInputCapture. rewrite Hf, Hk.
    now split.
Qed.

Lemma key_passed_on_witness :
  appInputCapture demo {| Key := KeyRune; Rune := rune_q |}
    {| state := initial 100; focus := PQueryArea; queryText := "SELECT";
       running := true |}
  = ({| state := initial 100; focus := PQueryArea; queryText := "SELECT";
        running := true |},
     Some {| Key := KeyRune; Rune := rune_q |}).
Proof.
  apply (proj1 (proj2 (proj2
           (key_passed_on demo {| Key := KeyRune; Rune := rune_q |}
              {| state := initial 100; focus := PQueryArea;
                 queryText := "SELECT"; running := true |}))
           eq_refl eq_refl)).
Defined.

(** X20. Whatever the input and the answer of the database,
    [runAdhocQuery] keeps the selection and the column table, sends at
    most one query, which is then the trimmed input, and posts at most
    one notification. *)
Theorem adhoc_frame (pool : Pool) (q : string) (s : AppState) :
  selection (runAdhocQuery pool q s) = selection s
  /\ columnTable (runAdhocQuery pool q s) = columnTable s
  /\ (issued (runAdhocQuery pool q s) = issued s
      \/ issued (runAdhocQuery pool q s)
         = issued s ++ [textQuery (GoStrings.TrimSpace q)])
  /\ (exists k, k <= 1 /\ posts k s (runAdhocQuery pool q s)).
Proof.
  split; [apply runAdhocQuery_selection|].
  unfold runAdhocQuery.
  destruct (String.eqb (GoStrings.TrimSpace q) EmptyString).
  - split; [reflexivity|]. split; [now left|].
    exists 0. split; [lia|apply posts_refl].
  - destruct (hasMultipleStatements (GoStrings.TrimSpace q)).
    + split; [reflexivity|]. split; [now left|].
      exists 1. split; [lia|apply posts_toast].
    + split; [|split].
      * unfold runQueryInto.
        destruct (pool (textQuery (GoStrings.TrimSpace q))) as [err|rows];
          [reflexivity|].
        now rewrite (runQueryRows_other ResultTable ColumnTable).
      * right. apply runQueryInto_issued.
      * exists 1. split; [lia|apply runQueryInto_posts].
Qed.
